(** * DeerLab [fitregmodel]: regularization-based fit

    A shallow embedding of [deerlab/fitregmodel.py] (functions [fitregmodel],
    [_augment] and [_obir]) and the properties of it that the specification
    states.

    Conventions of the embedding.
    - A numpy 1-d array is a [list] of scalars, a 2-d array the list of its
      rows.  The scalar type is a parameter with the arithmetic of the
      interface [Scalar]; it is instantiated with the real numbers (exact
      arithmetic) and with binary64 floats (what numpy computes with).
    - Array operations are written for conforming shapes, where numpy does
      not raise.
    - The functions of DeerLab and numpy.linalg that [fitregmodel.py] imports
      (the NNLS solvers, [lsqcomponents], [selregparam], [regoperator],
      [parse_multidatasets], [noiselevel], [hccm], [uqst], [goodness_of_fit],
      [solve], [pinv]) are parameters: only their call sites are in this file.
    - A computation is a value of [M A]: the list of the external calls it
      made, in order, and how it ended (a value, a Python exception, or the
      fuel of the [while] loop used up). *)

From Stdlib Require Import String Bool Arith ZArith Lia List.
From Stdlib Require Import Reals Lra.
From Stdlib Require Import Floats.
Import ListNotations.

Set Implicit Arguments.
Set Warnings "-notation-for-abbreviation".

(** ** Python values *)

(** A Python [str] object: its characters, and whether it is the interned
    object that a string literal of the same characters denotes.  [==]
    compares characters, [is] compares objects. *)
Record pystr : Type := PyStr { chars : string; interned : bool }.

(** The object denoted by the literal ['s'] in any module. *)
Definition lit (s : string) : pystr := PyStr s true.

(** [a == 'l'] *)
Definition py_eq (a : pystr) (l : string) : bool := String.eqb (chars a) l.

(** [a is 'l'] *)
Definition py_is (a : pystr) (l : string) : bool :=
  interned a && String.eqb (chars a) l.

Inductive exn : Type :=
| KeyError (msg : string)
| UnboundLocalError (var : string).

(** ** Computations: call log, exceptions, fuel *)

(** The external functions [fitregmodel.py] calls. *)
Inductive call : Type :=
| c_parse_multidatasets
| c_regoperator
| c_selregparam
| c_lsqcomponents
| c_noiselevel
| c_linalg_solve
| c_fnnls
| c_nnlsbpp
| c_cvxnnls
| c_hccm
| c_uqst
| c_linalg_pinv
| c_goodness_of_fit.

Inductive outcome (A : Type) : Type :=
| Val (a : A)
| Raise (e : exn)
| OutOfFuel.
Arguments Val {A} a.
Arguments Raise {A} e.
Arguments OutOfFuel {A}.

Definition M (A : Type) : Type := (list call * outcome A)%type.

Definition ret {A} (a : A) : M A := ([], Val a).
Definition raise {A} (e : exn) : M A := ([], Raise e).
Definition out_of_fuel {A} : M A := ([], OutOfFuel).

(** [ext c v]: the external call [c] returned [v]. *)
Definition ext {A} (c : call) (v : A) : M A := ([c], Val v).

Definition bind {A B} (m : M A) (k : A -> M B) : M B :=
  match snd m with
  | Val a => (fst m ++ fst (k a), snd (k a))
  | Raise e => (fst m, Raise e)
  | OutOfFuel => (fst m, OutOfFuel)
  end.

Declare Scope comp_scope.
Delimit Scope comp_scope with comp.
Notation "x <- m ;; k" := (bind m (fun x => k))
  (at level 61, m at next level, right associativity) : comp_scope.
Notation "' p <- m ;; k" := (bind m (fun x => let p := x in k))
  (at level 61, p pattern, m at next level, right associativity) : comp_scope.
Open Scope comp_scope.

Definition calls {A} (m : M A) : list call := fst m.
Definition result {A} (m : M A) : outcome A := snd m.

(** ** Scalars *)

Class Scalar (F : Type) : Type := {
  of_Z : Z -> F;
  add : F -> F -> F;
  sub : F -> F -> F;
  mul : F -> F -> F;
  div : F -> F -> F;
  opp : F -> F;
  ltb : F -> F -> bool;
  eqb : F -> F -> bool
}.

(** What [_augment] and [np.std] need besides: [np.sqrt], the power [x**y]
    with a float exponent, and [np.finfo(float).eps]. *)
Class Elementary (F : Type) : Type := {
  sqrt : F -> F;
  pow : F -> F -> F;
  eps : F
}.

Declare Scope sc_scope.
Delimit Scope sc_scope with sc.
Infix "+" := add : sc_scope.
Infix "-" := sub : sc_scope.
Infix "*" := mul : sc_scope.
Infix "/" := div : sc_scope.
Notation "x <? y" := (ltb x y) : sc_scope.
Notation "x >? y" := (ltb y x) : sc_scope.
Notation "x =? y" := (eqb x y) : sc_scope.
Notation "0" := (of_Z 0%Z) : sc_scope.
Notation "1" := (of_Z 1%Z) : sc_scope.
Notation "2" := (of_Z 2%Z) : sc_scope.
Notation "3" := (of_Z 3%Z) : sc_scope.
Notation "4" := (of_Z 4%Z) : sc_scope.

(** ** numpy arrays *)

Section Arrays.
Context {F : Type} {SF : Scalar F}.
Local Open Scope sc_scope.

Definition vec : Type := list F.
Definition mat : Type := list (list F).

(** Elementwise operations of two arrays of one shape. *)
Fixpoint zipWith (f : F -> F -> F) (x y : vec) : vec :=
  match x, y with
  | a :: x', b :: y' => f a b :: zipWith f x' y'
  | _, _ => []
  end.

Definition vadd (x y : vec) : vec := zipWith add x y.
Definition vsub (x y : vec) : vec := zipWith sub x y.
Definition vmul (x y : vec) : vec := zipWith mul x y.

(** [a*x], [x/a], [x - a] with a scalar [a]. *)
Definition vscale (a : F) (x : vec) : vec := map (mul a) x.
Definition vdivs (x : vec) (a : F) : vec := map (fun e => e / a) x.
Definition vsubs (x : vec) (a : F) : vec := map (fun e => e - a) x.
Definition mscale (a : F) (A : mat) : mat := map (vscale a) A.
Definition mdivs (A : mat) (a : F) : mat := map (fun row => vdivs row a) A.

(** [np.zeros(n)] *)
Definition zeros (n : nat) : vec := repeat 0 n.

(** [x.sum()] *)
Definition vsum (x : vec) : F := fold_left add x 0.

Definition dot (x y : vec) : F := vsum (vmul x y).

(** [A@x] *)
Definition matvec (A : mat) (x : vec) : vec := map (fun row => dot row x) A.

(** [A.T], for an array of [n] columns. *)
Fixpoint transpose (n : nat) (A : mat) : mat :=
  match A with
  | [] => repeat [] n
  | row :: A' =>
      (fix cons_col (r : vec) (T : mat) {struct T} : mat :=
         match T with
         | [] => []
         | t :: T' =>
             match r with
             | [] => []
             | a :: r' => (a :: t) :: cons_col r' T'
             end
         end) row (transpose n A')
  end.

Definition ncols (A : mat) : nat :=
  match A with
  | [] => O
  | row :: _ => length row
  end.

(** [A@B] *)
Definition matmul (A B : mat) : mat :=
  map (fun row => matvec (transpose (ncols B) B) row) A.

(** [x[:, np.newaxis]*A]: row [i] of [A] times [x[i]]. *)
Fixpoint scale_rows (x : vec) (A : mat) : mat :=
  match x, A with
  | a :: x', row :: A' => vscale a row :: scale_rows x' A'
  | _, _ => []
  end.

(** [np.trace(A)]: the sum of the diagonal. *)
Fixpoint diag_from (i : nat) (A : mat) : vec :=
  match A with
  | [] => []
  | row :: A' => nth i row 0 :: diag_from (S i) A'
  end.
Definition np_trace (A : mat) : F := vsum (diag_from O A).

(** [np.diff(x)] *)
Fixpoint np_diff (x : vec) : vec :=
  match x with
  | a :: (b :: _) as x' => (b - a) :: np_diff x'
  | _ => []
  end.

(** [np.trapz(y, x)]: [(d * (y[1:] + y[:-1]) / 2.0).sum()] with
    [d = np.diff(x)]. *)
Definition np_trapz (y x : vec) : F :=
  vsum (vdivs (vmul (np_diff x) (vadd (tl y) (removelast y))) 2).

(** [x[subset]] with an index array. *)
Definition take (x : vec) (subset : list nat) : vec :=
  map (fun i => nth i x 0) subset.

(** [len(x)] as a scalar. *)
Definition len (x : vec) : F := of_Z (Z.of_nat (length x)).

Context {EF : Elementary F}.

(** [np.std(x)]: [sqrt(mean(abs(x - x.mean())**2))]. *)
Definition np_mean (x : vec) : F := vsum x / len x.
Definition np_std (x : vec) : F :=
  let d := vsubs x (np_mean x) in
  sqrt (np_mean (vmul d d)).
End Arrays.

Arguments vec F : clear implicits.
Arguments mat F : clear implicits.

(** ** The fit *)

(** [alpha]: a number, or the name of a selection method
    ([type(alpha) is str]). *)
Inductive alpha_arg (F : Type) : Type :=
| AlphaMethod (method : pystr)
| AlphaValue (a : F).
Arguments AlphaMethod {F} method.
Arguments AlphaValue {F} a.

(** The value of the local variable [problem]: ['unconstrained'], ['nnls'] or
    ['obir']. *)
Inductive problem_kind : Type := unconstrained | nnls | obir_problem.

(** How the [while] loop of [_obir] was left: its condition became false, the
    [break] under [if semiconverged], or the [break] under
    [if stopDivergent and diverged]. *)
Inductive loop_exit : Type := cond_false | break_semiconverged | break_diverged.

(** The functions imported from the rest of DeerLab and from numpy.linalg, and
    the types of what passes through them unexamined: the arguments [V], [K],
    [weights] as the caller passes them (an array or a list of arrays), the
    weights as [parse_multidatasets] returns them, the object [uqst] builds
    and the record [goodness_of_fit] returns.  Each function is assumed to
    return. *)
Class Env (F : Type) : Type := {
  RawV : Type;
  RawK : Type;
  RawW : Type;
  W : Type;
  UQ : Type;
  Stats : Type;
  parse_multidatasets :
    RawV -> RawK -> RawW -> vec F * mat F * W * list (list nat);
  regoperator : vec F -> Z -> mat F;
  selregparam :
    vec F -> mat F -> vec F -> pystr -> pystr -> Z -> W -> bool -> F -> F;
  lsqcomponents :
    vec F -> mat F -> mat F -> F -> W -> pystr -> F -> mat F * vec F;
  noiselevel : vec F -> F;
  linalg_solve : mat F -> vec F -> vec F;
  fnnls : mat F -> vec F -> vec F;
  nnlsbpp : mat F -> vec F -> vec F -> vec F;
  cvxnnls : mat F -> vec F -> vec F;
  hccm : mat F -> vec F -> string -> mat F;
  uqst : string -> vec F -> mat F -> vec F -> UQ;
  uq_ci : UQ -> F -> mat F;
  linalg_pinv : mat F -> mat F;
  goodness_of_fit : vec F -> vec F -> F -> Stats;
  (** [weights*x] and [weights*A] by numpy broadcasting; the shape of the
      parsed weights is [parse_multidatasets]'s. *)
  wmul_vec : W -> vec F -> vec F;
  wmul_mat : W -> mat F -> mat F
}.

Section Fit.
Context {F : Type} {SF : Scalar F} {EF : Elementary F} {env : Env F}.
Local Open Scope sc_scope.

(** [A.T] *)
Definition T (A : mat F) : mat F := transpose (ncols A) A.

(** *** The solver chain

    [if solver == 'fnnls': ... elif solver == 'nnlsbpp': ...
     elif solver == 'cvx': ... else: raise KeyError(...)],
    as it stands in [fitregmodel] (with [KtV]) and in the loop of [_obir]
    (with [KtVsg]). *)
Definition unknown_solver (solver : pystr) : exn :=
  KeyError (chars solver ++ " is not a known non-negative least squares solver").

Definition nnls_solve (solver : pystr) (KtKreg : mat F) (KtV : vec F)
  : M (vec F) :=
  if py_eq solver "fnnls" then
    ext c_fnnls (fnnls KtKreg KtV)
  else if py_eq solver "nnlsbpp" then
    x0 <- ext c_linalg_solve (linalg_solve KtKreg KtV) ;;
    ext c_nnlsbpp (nnlsbpp KtKreg KtV x0)
  else if py_eq solver "cvx" then
    ext c_cvxnnls (cvxnnls KtKreg KtV)
  else
    raise (unknown_solver solver).

(** *** [_augment] *)

(** Elementwise [x**2] (numpy squares), [x**y] and [np.sqrt]. *)
Definition sq (x : F) : F := x * x.
Definition vsq (x : vec F) : vec F := map sq x.
Definition vpow (x : vec F) (y : F) : vec F := map (fun e => pow e y) x.
Definition vsqrt (x : vec F) : vec F := map sqrt x.
Definition vadds (x : vec F) (a : F) : vec F := map (fun e => e + a) x.

Definition _augment (res : vec F) (J : mat F) (regtype : pystr) (alpha : F)
    (L : mat F) (P : vec F) (eta : F) : M (vec F * mat F) :=
  let LP := matvec L P in
  '(resreg, Jreg) <-
    (if py_is regtype "tikhonov" then
       ret (LP, L)
     else if py_is regtype "tv" then
       ret (vpow (vadds (vsq LP) eps) (1 / 4),
            mscale (2 / 4)
              (scale_rows (vmul (vpow (vadds (vsq LP) eps) (opp 3 / 4)) LP) L))
     else if py_is regtype "huber" then
       ret (vsqrt (vsubs (vsqrt (vadds (vsq (vdivs LP eta)) 1)) 1),
            mscale ((1 / 2) / sq eta)
              (scale_rows
                 (vmul
                    (vmul
                       (vpow (vadds (vsubs (vsqrt (vadds (vsq (vdivs LP eta)) 1)) 1) eps)
                             (opp 1 / 2))
                       (vpow (vadds (vadds (vsq (vdivs LP eta)) 1) eps)
                             (opp 1 / 2)))
                    LP)
                 L))
     else
       raise (UnboundLocalError "resreg")) ;;
  let resreg := vscale alpha resreg in
  let Jreg := mscale alpha Jreg in
  ret (res ++ resreg, J ++ Jreg).

(** *** [_obir] *)

Definition MaxOuterIter : Z := 5000.
Definition stopDivergent : bool := false.

(** The variables the loop assigns. *)
Record obir_state : Type := ObirState {
  st_alpha : F;
  st_Counter : Z;
  st_Iteration : Z;
  st_Pfit : vec F;
  st_subGrad : vec F;
  st_KtKreg : mat F;
  st_KtV : vec F
}.

Inductive body_result : Type :=
| Continue (st : obir_state)
| Break (how : loop_exit) (Pfit : vec F).

Section Loop.
(** What the loop reads and does not assign. *)
Variables (V : vec F) (K L : mat F) (regtype : pystr) (weights : W)
          (noiselevelaim huberparam : F) (solver : pystr).

(** [np.std(K@P - V)] *)
Definition resid_std (P : vec F) : F := np_std (vsub (matvec K P) V).

(** One pass through the body of the [while]; [stopDiv] is the value of
    the local [stopDivergent]. *)
Definition obir_body (stopDiv : bool) (st : obir_state) : M body_result :=
  let Pprev := st_Pfit st in
  let KtVsg := vsub (st_KtV st) (st_subGrad st) in
  Pfit <- nnls_solve solver (st_KtKreg st) KtVsg ;;
  let subGrad :=
    vadd (st_subGrad st)
         (matvec (wmul_mat weights (T K)) (vsub (matvec K Pfit) V)) in
  if (st_Iteration st =? 1)%Z then
    if noiselevelaim >? resid_std Pfit then
      let alpha := st_alpha st * of_Z (2 ^ st_Counter st) in
      let Counter := (st_Counter st + 1)%Z in
      '(KtKreg, KtV) <-
        ext c_lsqcomponents
            (lsqcomponents V K L alpha weights regtype huberparam) ;;
      ret (Continue (ObirState alpha Counter (st_Iteration st) Pfit subGrad
                               KtKreg KtV))
    else
      ret (Continue (ObirState (st_alpha st) (st_Counter st)
                               (st_Iteration st + 1)%Z Pfit subGrad
                               (st_KtKreg st) (st_KtV st)))
  else
    let diverged := resid_std Pprev <? resid_std Pfit in
    let semiconverged := noiselevelaim >? resid_std Pfit in
    if semiconverged then
      ret (Break break_semiconverged Pfit)
    else
      let Iteration := (st_Iteration st + 1)%Z in
      if stopDiv && diverged then
        ret (Break break_diverged Pprev)
      else
        ret (Continue (ObirState (st_alpha st) (st_Counter st) Iteration
                                 Pfit subGrad (st_KtKreg st) (st_KtV st))).

(** [while Iteration <= MaxOuterIter: ...]; every pass through the body
    takes one unit of fuel.  The result is [Pfit] when the loop is left,
    and how it was left. *)
Fixpoint obir_loop (stopDiv : bool) (fuel : nat) (st : obir_state)
  : M (loop_exit * vec F) :=
  if (st_Iteration st <=? MaxOuterIter)%Z then
    match fuel with
    | O => out_of_fuel
    | S fuel' =>
        r <- obir_body stopDiv st ;;
        match r with
        | Continue st' => obir_loop stopDiv fuel' st'
        | Break how Pfit => ret (how, Pfit)
        end
    end
  else
    ret (cond_false, st_Pfit st).
End Loop.

Definition obir_init (alpha : F) (L : mat F) (KtKreg : mat F) (KtV : vec F)
  : obir_state :=
  let nr := ncols L in
  ObirState alpha 1%Z 1%Z (zeros nr) (zeros nr) KtKreg KtV.

(** [_obir] up to the loop: the noise level to aim at and the first normal
    equations. *)
Definition obir_setup (V : vec F) (K L : mat F) (regtype : pystr) (alpha : F)
    (weights : W) (noiselevelaim huberparam : F) : M (F * obir_state) :=
  noiselevelaim <-
    (if noiselevelaim =? opp 1 then ext c_noiselevel (noiselevel V)
     else ret noiselevelaim) ;;
  '(KtKreg, KtV) <-
    ext c_lsqcomponents (lsqcomponents V K L alpha weights regtype huberparam) ;;
  ret (noiselevelaim, obir_init alpha L KtKreg KtV).

Definition obir_run (fuel : nat) (V : vec F) (K L : mat F) (regtype : pystr)
    (alpha : F) (weights : W) (noiselevelaim huberparam : F) (solver : pystr)
  : M (loop_exit * vec F) :=
  '(noiselevelaim, st) <-
    obir_setup V K L regtype alpha weights noiselevelaim huberparam ;;
  obir_loop V K L regtype weights noiselevelaim huberparam solver
            stopDivergent fuel st.

Definition _obir (fuel : nat) (V : vec F) (K L : mat F) (regtype : pystr)
    (alpha : F) (weights : W) (noiselevelaim huberparam : F) (solver : pystr)
  : M (vec F) :=
  r <- obir_run fuel V K L regtype alpha weights noiselevelaim huberparam
                solver ;;
  ret (snd r).
(** *** [fitregmodel] *)

(** The keyword arguments. *)
Record options : Type := Options {
  regtype : pystr;
  alpha : alpha_arg F;
  regorder : Z;
  solver : pystr;
  weights : RawW;
  huberparam : F;
  nonnegativity : bool;
  obir : bool;
  uqanalysis : bool;
  renormalize : bool;
  noiselevelaim : F;
  full_output : bool
}.

(** [Puq]: the empty list, or the object [uqst] built together with what
    its attribute [ci] is bound to. *)
Inductive puq : Type :=
| PuqEmpty
| PuqObj (u : UQ) (ci : F -> mat F).

(** [stats]: the list of the records, or the record itself. *)
Inductive stats_value : Type :=
| StatsList (l : list Stats)
| StatsOne (s : Stats).

(** The returned tuple. *)
Inductive fit_result : Type :=
| Fit2 (Pfit : vec F) (Puq : puq)
| Fit3 (Pfit : vec F) (Puq : puq) (stats : stats_value).

Definition classify (o : options) : problem_kind :=
  if obir o then obir_problem
  else if nonnegativity o then nnls
  else unconstrained.

(** Lines 92-110: parsing, regularization matrix, regularization parameter
    and the components of the least-squares problem. *)
Definition fit_prepare (V0 : RawV) (K0 : RawK) (r : vec F) (o : options)
  : M (vec F * mat F * W * list (list nat) * mat F * F * mat F * vec F) :=
  '(V, K, w, subsets) <-
    ext c_parse_multidatasets (parse_multidatasets V0 K0 (weights o)) ;;
  L <- ext c_regoperator (regoperator r (regorder o)) ;;
  a <- match alpha o with
       | AlphaMethod m =>
           ext c_selregparam
               (selregparam V K r (regtype o) m (regorder o) w
                            (nonnegativity o) (huberparam o))
       | AlphaValue a => ret a
       end ;;
  '(KtKreg, KtV) <-
    ext c_lsqcomponents
        (lsqcomponents V K L a w (regtype o) (huberparam o)) ;;
  ret (V, K, w, subsets, L, a, KtKreg, KtV).

(** Lines 112-129: the solution of the problem. *)
Definition fit_solve (fuel : nat) (o : options) (V : vec F) (K L : mat F)
    (a : F) (w : W) (KtKreg : mat F) (KtV : vec F) : M (vec F) :=
  match classify o with
  | unconstrained => ext c_linalg_solve (linalg_solve KtKreg KtV)
  | obir_problem =>
      _obir fuel V K L (regtype o) a w (noiselevelaim o) (huberparam o)
            (solver o)
  | nnls => nnls_solve (solver o) KtKreg KtV
  end.

(** Lines 133-148: uncertainty quantification. *)
Definition fit_uq (o : options) (V : vec F) (K L : mat F) (a : F) (w : W)
    (r Pfit : vec F) : M puq :=
  if uqanalysis o then
    let res := wmul_vec w (vsub V (matvec K Pfit)) in
    let Jres := wmul_mat w K in
    '(res, J) <- _augment res Jres (regtype o) a L Pfit (huberparam o) ;;
    covmat <- ext c_hccm (hccm J res "HC1") ;;
    let NonNegConst := zeros (length r) in
    u <- ext c_uqst (uqst "covariance" Pfit covmat NonNegConst) ;;
    ret (PuqObj u (uq_ci u))
  else
    ret PuqEmpty.

(** Lines 152-157: re-normalization. *)
Definition fit_renormalize (o : options) (r Pfit : vec F) (Puq : puq)
  : vec F * puq :=
  if renormalize o then
    let Pnorm := np_trapz Pfit r in
    let Pfit' := vdivs Pfit Pnorm in
    if uqanalysis o then
      match Puq with
      | PuqObj u ci => (Pfit', PuqObj u (fun p => mdivs (ci p) Pnorm))
      | PuqEmpty => (Pfit', PuqEmpty)
      end
    else (Pfit', Puq)
  else (Pfit, Puq).

(** Lines 162-169: goodness of fit. *)
Fixpoint gof_loop (V Vfit : vec F) (Hm : mat F) (subsets : list (list nat))
  : M (list Stats) :=
  match subsets with
  | [] => ret []
  | subset :: rest =>
      let Ndof := len (take V subset) - np_trace Hm in
      s <- ext c_goodness_of_fit
               (goodness_of_fit (take V subset) (take Vfit subset) Ndof) ;;
      l <- gof_loop V Vfit Hm rest ;;
      ret (s :: l)
  end.

Definition fit_gof (V : vec F) (K KtKreg : mat F) (Pfit : vec F)
    (subsets : list (list nat)) : M stats_value :=
  let Vfit := matvec K Pfit in
  Kp <- ext c_linalg_pinv (linalg_pinv KtKreg) ;;
  let Hm := matmul K (matmul Kp (T K)) in
  stats <- gof_loop V Vfit Hm subsets ;;
  match stats with
  | [s] => ret (StatsOne s)
  | _ => ret (StatsList stats)
  end.

Definition fitregmodel (fuel : nat) (V0 : RawV) (K0 : RawK) (r : vec F)
    (o : options) : M fit_result :=
  '(V, K, w, subsets, L, a, KtKreg, KtV) <- fit_prepare V0 K0 r o ;;
  Pfit <- fit_solve fuel o V K L a w KtKreg KtV ;;
  Puq <- fit_uq o V K L a w r Pfit ;;
  let '(Pfit, Puq) := fit_renormalize o r Pfit Puq in
  stats <- fit_gof V K KtKreg Pfit subsets ;;
  if full_output o then ret (Fit3 Pfit Puq stats)
  else ret (Fit2 Pfit Puq).
End Fit.

(** ** Scalars: real numbers and binary64 floats *)

(** Exact arithmetic.  [x**y] is used by [_augment] on positive bases only. *)
#[export] Instance R_scalar : Scalar R := {
  of_Z := IZR;
  add := Rplus;
  sub := Rminus;
  mul := Rmult;
  div := Rdiv;
  opp := Ropp;
  ltb := fun x y => if Rlt_dec x y then true else false;
  eqb := fun x y => if Req_dec_T x y then true else false
}.

#[export] Instance R_elementary : Elementary R := {
  sqrt := R_sqrt.sqrt;
  pow := Rpower;
  eps := (/ 2 ^ 52)%R
}.

(** The conversion of a Python [int] below [2**63] in magnitude. *)
Definition float_of_Z (z : Z) : float :=
  match z with
  | Z0 => PrimFloat.zero
  | Zpos _ => PrimFloat.of_uint63 (Uint63.of_Z z)
  | Zneg p => PrimFloat.opp (PrimFloat.of_uint63 (Uint63.of_Z (Zpos p)))
  end.

(** numpy's [float64]. *)
#[export] Instance float_scalar : Scalar float := {
  of_Z := float_of_Z;
  add := PrimFloat.add;
  sub := PrimFloat.sub;
  mul := PrimFloat.mul;
  div := PrimFloat.div;
  opp := PrimFloat.opp;
  ltb := PrimFloat.ltb;
  eqb := PrimFloat.eqb
}.

(** ** A small problem: the zero signal

    Two samples, both zero, given as one dataset or as two datasets of one
    sample; a two-point distance axis; the identity kernel; Tikhonov
    regularization with the first-difference operator and [alpha = 1]; unit
    weight.  The external functions are given by their values on this
    problem; those the examples do not reach return an empty array. *)

Section ZeroSignal.
Context {F : Type} {SF : Scalar F}.
Local Open Scope sc_scope.

Definition zs_V : vec F := [0; 0].
Definition zs_K : mat F := [[1; 0]; [0; 1]].
Definition zs_r : vec F := [1; 2].
Definition zs_L : mat F := [[opp 1; 1]].

(** The same signal and kernel as the caller passes them: one array, or a
    list of two arrays. *)
Definition zs_one_V : list (vec F) := [zs_V].
Definition zs_one_K : list (mat F) := [zs_K].
Definition zs_two_V : list (vec F) := [[0]; [0]].
Definition zs_two_K : list (mat F) := [[[1; 0]]; [[0; 1]]].

(** The index arrays of the datasets within their concatenation. *)
Fixpoint subsets_from (start : nat) (Vs : list (vec F)) : list (list nat) :=
  match Vs with
  | [] => []
  | v :: Vs' => seq start (length v) :: subsets_from (start + length v) Vs'
  end.

(** [K.T@K + alpha**2*L.T@L] and [K.T@V]. *)
Definition normal_equations (V : vec F) (K L : mat F) (alpha : F)
  : mat F * vec F :=
  (map (fun rows => vadd (fst rows) (snd rows))
       (combine (matmul (transpose (ncols K) K) K)
                (mscale (alpha * alpha) (matmul (transpose (ncols L) L) L))),
   matvec (transpose (ncols K) K) V).

(** The solution for the zero signal of the linear system and of the
    non-negative problem. *)
Definition zero_solution (A : mat F) (b : vec F) : vec F :=
  zeros (length b).

(** The inverse of [[2, -1], [-1, 2]]. *)
Definition zs_pinv : mat F := [[2 / 3; 1 / 3]; [1 / 3; 2 / 3]].

Definition zero_signal_env : Env F := {|
  RawV := list (vec F);
  RawK := list (mat F);
  RawW := F;
  W := F;
  UQ := unit;
  Stats := vec F * vec F * F;
  parse_multidatasets := fun Vs Ks w =>
    (concat Vs, concat Ks, w, subsets_from O Vs);
  regoperator := fun _ _ => zs_L;
  selregparam := fun _ _ _ _ _ _ _ _ _ => 1;
  lsqcomponents := fun V K L alpha _ _ _ => normal_equations V K L alpha;
  noiselevel := fun _ => 0;
  linalg_solve := zero_solution;
  fnnls := zero_solution;
  nnlsbpp := fun A b _ => zero_solution A b;
  cvxnnls := zero_solution;
  hccm := fun _ _ _ => [];
  uqst := fun _ _ _ _ => tt;
  uq_ci := fun _ _ => [];
  linalg_pinv := fun _ => zs_pinv;
  goodness_of_fit := fun Vs Vf Ndof => (Vs, Vf, Ndof);
  wmul_vec := vscale;
  wmul_mat := mscale
|}.
End ZeroSignal.

(** ** Properties *)

Unset Implicit Arguments.

(** *** Computations *)

Lemma bind_val {A B} (m : M A) (k : A -> M B) (a : A) :
  result m = Val a ->
  bind m k = (calls m ++ calls (k a), result (k a)).
Proof. unfold bind, result, calls. intros ->. reflexivity. Qed.

Lemma bind_raise {A B} (m : M A) (k : A -> M B) (e : exn) :
  result m = Raise e -> bind m k = (calls m, Raise e).
Proof. unfold bind, result, calls. intros ->. reflexivity. Qed.

Lemma bind_out_of_fuel {A B} (m : M A) (k : A -> M B) :
  result m = OutOfFuel -> bind m k = (calls m, OutOfFuel).
Proof. unfold bind, result, calls. intros ->. reflexivity. Qed.

Lemma bind_ext {A B} (c : call) (v : A) (k : A -> M B) :
  bind (ext c v) k = (c :: calls (k v), result (k v)).
Proof. reflexivity. Qed.

Lemma bind_ret {A B} (v : A) (k : A -> M B) :
  bind (ret v) k = (calls (k v), result (k v)).
Proof. reflexivity. Qed.

Lemma bind_pair_val {A B} (l : list call) (a : A) (k : A -> M B) :
  bind (l, Val a) k = (l ++ calls (k a), result (k a)).
Proof. reflexivity. Qed.

Lemma comp_eta {A} (m : M A) : m = (calls m, result m).
Proof. destruct m; reflexivity. Qed.

(** The passes through the loop body a log shows: each pass calls one NNLS
    solver, once. *)
Definition is_nnls_call (c : call) : bool :=
  match c with
  | c_fnnls | c_nnlsbpp | c_cvxnnls => true
  | _ => false
  end.

Definition passes (l : list call) : nat :=
  List.length (filter is_nnls_call l).


(** [solver] is one of the three tags the chain knows. *)
Definition known_solver (solver : pystr) : bool :=
  py_eq solver "fnnls" || py_eq solver "nnlsbpp" || py_eq solver "cvx".

Section SolverProperties.
Context {F : Type} {SF : Scalar F} {EF : Elementary F} {env : Env F}.

(** The value the solver chain returns for a known tag. *)
Definition nnls_value (solver : pystr) (A : mat F) (b : vec F) : vec F :=
  if py_eq solver "fnnls" then fnnls A b
  else if py_eq solver "nnlsbpp" then nnlsbpp A b (linalg_solve A b)
  else cvxnnls A b.

Lemma nnls_solve_known (solver : pystr) (A : mat F) (b : vec F) :
  known_solver solver = true ->
  result (nnls_solve solver A b) = Val (nnls_value solver A b) /\
  passes (calls (nnls_solve solver A b)) = 1%nat.
Proof.
  unfold known_solver, nnls_solve, nnls_value. intros Hk.
  destruct (py_eq solver "fnnls"); [split; reflexivity|].
  destruct (py_eq solver "nnlsbpp"); [split; reflexivity|].
  destruct (py_eq solver "cvx"); [split; reflexivity|discriminate].
Qed.

Lemma nnls_solve_unknown (solver : pystr) (A : mat F) (b : vec F) :
  known_solver solver = false ->
  nnls_solve solver A b = ([], Raise (unknown_solver solver)).
Proof.
  unfold known_solver, nnls_solve. intros Hk.
  destruct (py_eq solver "fnnls"); [discriminate|].
  destruct (py_eq solver "nnlsbpp"); [discriminate|].
  destruct (py_eq solver "cvx"); [discriminate|reflexivity].
Qed.
End SolverProperties.

(** *** The Osher-Bregman iteration *)

Section ObirProperties.
Context {F : Type} {SF : Scalar F} {EF : Elementary F} {env : Env F}.
Variables (V : vec F) (K L : mat F) (regtype : pystr) (weights : W)
          (noiselevelaim huberparam : F) (solver : pystr).
Local Open Scope sc_scope.

Local Notation body :=
  (obir_body V K L regtype weights noiselevelaim huberparam solver).
Local Notation loop :=
  (obir_loop V K L regtype weights noiselevelaim huberparam solver).
Local Notation std_of P := (np_std (vsub (matvec K P) V)).

(** The specification's per-iteration body (section 4.4): the shifted
    right-hand side of step 2, the subgradient of step 4. *)
Definition spec_KtVsg (st : obir_state) : vec F :=
  vsub (st_KtV st) (st_subGrad st).

Definition spec_subGrad (st : obir_state) (P : vec F) : vec F :=
  vadd (st_subGrad st)
       (matvec (wmul_mat weights (T K)) (vsub (matvec K P) V)).

(** The specification's transition in [refining], for the solution [P] of the
    shifted problem: stop with [P] when semiconverged; else advance the
    counter, and revert to the previous iterate and stop when divergence halt
    is enabled and the residual got worse. *)
Definition spec_refining (halt : bool) (st : obir_state) (P : vec F)
  : body_result :=
  if noiselevelaim >? std_of P then
    Break break_semiconverged P
  else if halt && (std_of (st_Pfit st) <? std_of P) then
    Break break_diverged (st_Pfit st)
  else
    Continue (ObirState (st_alpha st) (st_Counter st) (st_Iteration st + 1)%Z
                        P (spec_subGrad st P) (st_KtKreg st) (st_KtV st)).

(** The specification's transition in [warmup]: below the noise target,
    [alpha] is multiplied by [2^counter], the counter incremented, the normal
    equations rebuilt, and the iteration counter kept; otherwise the
    iteration counter advances. *)
Definition spec_warmup (st : obir_state) (P : vec F) : body_result :=
  if noiselevelaim >? std_of P then
    let alpha' := st_alpha st * of_Z (2 ^ st_Counter st) in
    let rebuilt := lsqcomponents V K L alpha' weights regtype huberparam in
    Continue (ObirState alpha' (st_Counter st + 1)%Z (st_Iteration st)
                        P (spec_subGrad st P) (fst rebuilt) (snd rebuilt))
  else
    Continue (ObirState (st_alpha st) (st_Counter st) (st_Iteration st + 1)%Z
                        P (spec_subGrad st P) (st_KtKreg st) (st_KtV st)).


Lemma body_unknown_solver (halt : bool) (st : obir_state) :
  known_solver solver = false ->
  body halt st = ([], Raise (unknown_solver solver)).
Proof.
  intros Hk. unfold obir_body.
  rewrite nnls_solve_unknown by exact Hk. reflexivity.
Qed.

Lemma body_refining (halt : bool) (st : obir_state) (P : vec F) :
  st_Iteration st <> 1%Z ->
  result (nnls_solve solver (st_KtKreg st) (spec_KtVsg st)) = Val P ->
  body halt st =
  (calls (nnls_solve solver (st_KtKreg st) (spec_KtVsg st)),
   Val (spec_refining halt st P)).
Proof.
  intros Hit HP. unfold obir_body. fold (spec_KtVsg st).
  rewrite (bind_val _ _ _ HP).
  apply Z.eqb_neq in Hit. rewrite Hit.
  unfold spec_refining, resid_std, spec_subGrad.
  destruct (noiselevelaim >? std_of P); [now rewrite app_nil_r|].
  destruct (halt && (std_of (st_Pfit st) <? std_of P))%bool;
    now rewrite app_nil_r.
Qed.

Lemma body_warmup (halt : bool) (st : obir_state) (P : vec F) :
  st_Iteration st = 1%Z ->
  result (nnls_solve solver (st_KtKreg st) (spec_KtVsg st)) = Val P ->
  body halt st =
  (calls (nnls_solve solver (st_KtKreg st) (spec_KtVsg st)) ++
     (if noiselevelaim >? std_of P then [c_lsqcomponents] else []),
   Val (spec_warmup st P)).
Proof.
  intros Hit HP. unfold obir_body. fold (spec_KtVsg st).
  rewrite (bind_val _ _ _ HP). rewrite Hit. simpl Z.eqb. cbv iota.
  unfold spec_warmup, resid_std, spec_subGrad. rewrite Hit.
  destruct (noiselevelaim >? std_of P); [|reflexivity].
  rewrite bind_ext.
  destruct (lsqcomponents V K L (st_alpha st * of_Z (2 ^ st_Counter st))
                          weights regtype huberparam) as [A b].
  reflexivity.
Qed.

Lemma loop_unfold (halt : bool) (fuel : nat) (st : obir_state) :
  loop halt (S fuel) st =
  if (st_Iteration st <=? MaxOuterIter)%Z then
    r <- body halt st ;;
    match r with
    | Continue st' => loop halt fuel st'
    | Break how Pfit => ret (how, Pfit)
    end
  else ret (cond_false, st_Pfit st).
Proof. reflexivity. Qed.



(** C2.  A pass made with the iteration counter past 1 solves the problem
    with right-hand side [KtV - subGrad], adds [weights*K.T@(K@P - V)] to the
    subgradient and then does what the specification's [refining] transition
    says: the loop stops with the current [P] exactly when the noise target
    exceeds [std(K@P - V)]; it reverts to [Pprev] and stops exactly when it
    is not semiconverged, divergence halt is enabled and
    [std(K@Pprev - V) < std(K@P - V)]; in every other case it goes on with
    the counter advanced by one. *)
Theorem refining_pass_follows_spec (halt : bool) (st : obir_state)
    (P : vec F) :
  st_Iteration st <> 1%Z ->
  result (nnls_solve solver (st_KtKreg st)
                     (vsub (st_KtV st) (st_subGrad st))) = Val P ->
  let semiconverged := noiselevelaim >? std_of P in
  let diverged := std_of (st_Pfit st) <? std_of P in
  result (body halt st) = Val (spec_refining halt st P) /\
  (forall fuel,
      (st_Iteration st <= MaxOuterIter)%Z ->
      result (loop halt (S fuel) st) =
      match spec_refining halt st P with
      | Break how P' => Val (how, P')
      | Continue st' => result (loop halt fuel st')
      end) /\
  (result (body halt st) = Val (Break break_semiconverged P) <->
   semiconverged = true) /\
  (result (body halt st) = Val (Break break_diverged (st_Pfit st)) <->
   semiconverged = false /\ halt = true /\ diverged = true) /\
  (semiconverged = false -> halt && diverged = false ->
   result (body halt st) =
   Val (Continue
          (ObirState (st_alpha st) (st_Counter st) (st_Iteration st + 1)%Z P
             (vadd (st_subGrad st)
                   (matvec (wmul_mat weights (T K)) (vsub (matvec K P) V)))
             (st_KtKreg st) (st_KtV st)))).
Proof.
  intros Hit HP semiconverged diverged.
  pose proof (body_refining halt st P Hit HP) as Hb.
  assert (Hr : result (body halt st) = Val (spec_refining halt st P))
    by (rewrite Hb; reflexivity).
  split; [exact Hr|]. split.
  - intros fuel Hc. rewrite loop_unfold.
    apply Z.leb_le in Hc. rewrite Hc, Hb, bind_pair_val.
    destruct (spec_refining halt st P); reflexivity.
  - rewrite Hr. unfold spec_refining.
    fold semiconverged. fold diverged.
    destruct semiconverged, halt, diverged; cbn [andb];
      repeat split; intros; try discriminate; try reflexivity;
      match goal with
      | Hc : _ /\ _ /\ _ |- _ => destruct Hc as (? & ? & ?); discriminate
      end.
Qed.

(** C3.  A pass made with the iteration counter at 1 does what the
    specification's [warmup] transition says.  When the noise target exceeds
    [std(K@P - V)], [alpha] becomes [alpha*2**Counter], [Counter] is
    incremented, [lsqcomponents] is called again with the new [alpha] for
    [KtKreg] and [KtV], and the iteration counter stays at 1; otherwise
    [alpha], [Counter], [KtKreg] and [KtV] are kept and the iteration counter
    becomes 2. *)
Theorem warmup_pass_follows_spec (halt : bool) (st : obir_state)
    (P : vec F) :
  st_Iteration st = 1%Z ->
  result (nnls_solve solver (st_KtKreg st)
                     (vsub (st_KtV st) (st_subGrad st))) = Val P ->
  let below := noiselevelaim >? std_of P in
  result (body halt st) = Val (spec_warmup st P) /\
  (below = true ->
   exists st',
     result (body halt st) = Val (Continue st') /\
     st_alpha st' = st_alpha st * of_Z (2 ^ st_Counter st) /\
     st_Counter st' = (st_Counter st + 1)%Z /\
     (st_KtKreg st', st_KtV st') =
       lsqcomponents V K L (st_alpha st') weights regtype huberparam /\
     st_Iteration st' = 1%Z /\
     calls (body halt st) =
       calls (nnls_solve solver (st_KtKreg st)
                         (vsub (st_KtV st) (st_subGrad st)))
       ++ [c_lsqcomponents]) /\
  (below = false ->
   exists st',
     result (body halt st) = Val (Continue st') /\
     st_alpha st' = st_alpha st /\
     st_Counter st' = st_Counter st /\
     st_KtKreg st' = st_KtKreg st /\
     st_KtV st' = st_KtV st /\
     st_Iteration st' = 2%Z /\
     calls (body halt st) =
       calls (nnls_solve solver (st_KtKreg st)
                         (vsub (st_KtV st) (st_subGrad st)))).
Proof.
  intros Hit HP below.
  pose proof (body_warmup halt st P Hit HP) as Hb.
  fold below in Hb. rewrite Hb. unfold result, calls. cbn [fst snd].
  split; [reflexivity|].
  unfold spec_warmup. fold below.
  split; intros Hbelow; rewrite Hbelow; eexists; cbn [st_alpha st_Counter
    st_KtKreg st_KtV st_Iteration]; repeat split.
  - now destruct (lsqcomponents _ _ _ _ _ _ _).
  - exact Hit.
  - rewrite Hit; reflexivity.
  - unfold spec_KtVsg. now rewrite app_nil_r.
Qed.

(** Whether a finished loop was left by the [break] that follows
    [Pfit = Pprev]. *)
Definition reverted (m : M (loop_exit * vec F)) : bool :=
  match result m with
  | Val (break_diverged, _) => true
  | _ => false
  end.

Lemma loop_never_reverts (fuel : nat) (st : obir_state) :
  reverted (loop stopDivergent fuel st) = false.
Proof.
  revert st. induction fuel as [|fuel IH]; intros st.
  - unfold reverted. simpl.
    destruct (st_Iteration st <=? MaxOuterIter)%Z; reflexivity.
  - rewrite loop_unfold.
    destruct (st_Iteration st <=? MaxOuterIter)%Z; [|reflexivity].
    unfold obir_body, stopDivergent.
    destruct (nnls_solve solver (st_KtKreg st)
                (vsub (st_KtV st) (st_subGrad st))) as [l [P|e|]];
      [|reflexivity|reflexivity].
    rewrite bind_pair_val.
    destruct (st_Iteration st =? 1)%Z.
    + destruct (noiselevelaim >? resid_std V K P).
      * rewrite bind_ext. destruct (lsqcomponents _ _ _ _ _ _ _) as [A b].
        cbn [calls result fst snd ret]. rewrite bind_pair_val.
        unfold reverted, result in *. cbn [snd]. apply IH.
      * cbn [calls result fst snd ret]. rewrite bind_pair_val.
        unfold reverted, result in *. cbn [snd]. apply IH.
    + destruct (noiselevelaim >? resid_std V K P).
      * reflexivity.
      * cbn [andb calls result fst snd ret]. rewrite bind_pair_val.
        unfold reverted, result in *. cbn [snd]. apply IH.
Qed.
End ObirProperties.

Section ObirRun.
Context {F : Type} {SF : Scalar F} {EF : Elementary F} {env : Env F}.

(** C9.  However [_obir] is called, its loop is never left by the branch that
    reverts to the previous iterate: the flag [stopDivergent] is the constant
    [False] of the function body, and neither [_obir] nor [fitregmodel] takes
    it as an argument. *)
Theorem obir_never_returns_previous_iterate (fuel : nat) (V : vec F)
    (K L : mat F) (regtype : pystr) (alpha : F) (weights : W)
    (noiselevelaim huberparam : F) (solver : pystr) :
  stopDivergent = false /\
  reverted (obir_run fuel V K L regtype alpha weights noiselevelaim huberparam
                     solver) = false.
Proof.
  split; [reflexivity|].
  unfold obir_run, obir_setup.
  destruct (eqb noiselevelaim (opp (of_Z 1))).
  - rewrite bind_ext. destruct (lsqcomponents _ _ _ _ _ _ _) as [A b].
    rewrite bind_ext. cbn [calls result fst snd ret]. rewrite bind_pair_val.
    unfold reverted, result. cbn [snd]. apply loop_never_reverts.
  - rewrite bind_ret. destruct (lsqcomponents _ _ _ _ _ _ _) as [A b].
    rewrite bind_ext. cbn [calls result fst snd ret]. rewrite bind_pair_val.
    unfold reverted, result. cbn [snd]. apply loop_never_reverts.
Qed.
End ObirRun.

(** *** The zero signal on real numbers *)

Module ZeroSignalR.
Local Open Scope R_scope.
#[local] Existing Instance zero_signal_env.

Definition tikhonov : pystr := lit "tikhonov".
Definition cvx : pystr := lit "cvx".
Definition huber_default : R := 135 / 100.


Lemma std_zero_solution (n : nat) :
  np_std (vsub (matvec zs_K (zeros n)) zs_V) = 0.
Proof.
  unfold np_std, np_mean, zs_V, zs_K.
  destruct n as [|[|n]];
    cbv [zeros repeat matvec map dot vmul vsub vsubs zipWith vsum fold_left
         len length Z.of_nat Pos.of_succ_nat Pos.succ
         add sub mul div of_Z sqrt R_scalar R_elementary];
    match goal with |- R_sqrt.sqrt ?e = _ => replace e with 0 by lra end;
    apply sqrt_0.
Qed.




(** The state of the loop on the zero signal when the iteration counter is
    [it]: nothing has moved away from zero. *)
Definition zs_state (it : Z) : obir_state :=
  ObirState 1 1%Z it [0; 0] [0; 0] [[2; -1]; [-1; 2]] [0; 0].


Lemma refining_pass_follows_spec_witness :
  result (obir_body zs_V zs_K zs_L tikhonov 1 1 huber_default cvx true
                    (zs_state 2)) =
  Val (spec_refining zs_V zs_K 1 1 true (zs_state 2) (zeros 2)).
Proof.
  apply (refining_pass_follows_spec (env := zero_signal_env) zs_V zs_K zs_L tikhonov 1 1
           huber_default cvx true (zs_state 2) (zeros 2)).
  - cbn. lia.
  - reflexivity.
Defined.

Lemma warmup_pass_follows_spec_witness :
  result (obir_body zs_V zs_K zs_L tikhonov 1 1 huber_default cvx false
                    (zs_state 1)) =
  Val (spec_warmup zs_V zs_K zs_L tikhonov 1 1 huber_default (zs_state 1)
                   (zeros 2)).
Proof.
  apply (warmup_pass_follows_spec (env := zero_signal_env) zs_V zs_K zs_L tikhonov 1 1
           huber_default cvx false (zs_state 1) (zeros 2)).
  - reflexivity.
  - reflexivity.
Defined.
End ZeroSignalR.

(** *** The augmented residual and Jacobian *)

(** The three regularization types and the literals that name them. *)
Inductive penalty : Type := tikhonov_penalty | tv_penalty | huber_penalty.

Definition tag (p : penalty) : string :=
  match p with
  | tikhonov_penalty => "tikhonov"
  | tv_penalty => "tv"
  | huber_penalty => "huber"
  end.

Section ListLemmas.
Context {A B : Type}.

Lemma nth_map_lt (f : A -> B) (l : list A) (i : nat) (d : B) (d' : A) :
  (i < length l)%nat -> nth i (map f l) d = f (nth i l d').
Proof.
  revert i. induction l as [|a l IH]; intros [|i] Hi; simpl in *;
    try lia; [reflexivity|]. apply IH. lia.
Qed.

Lemma nth_app_left (l1 l2 : list A) (i : nat) (d : A) :
  (i < length l1)%nat -> nth i (l1 ++ l2) d = nth i l1 d.
Proof. intros Hi. now apply app_nth1. Qed.

Lemma nth_app_right (l1 l2 : list A) (i : nat) (d : A) :
  nth (length l1 + i) (l1 ++ l2) d = nth i l2 d.
Proof.
  rewrite app_nth2 by lia. f_equal. lia.
Qed.
End ListLemmas.

Section AugmentProperties.
Context {F : Type} {SF : Scalar F} {EF : Elementary F} {env : Env F}.
Local Open Scope sc_scope.

(** The specification's penalty residual at [x = (L@P)[i]] (section 4.1). *)
Definition spec_penalty_residual (p : penalty) (eta x : F) : F :=
  match p with
  | tikhonov_penalty => x
  | tv_penalty => pow (x * x + eps) (1 / 4)
  | huber_penalty => sqrt (sqrt ((x / eta) * (x / eta) + 1) - 1)
  end.

(** The specification's factor on row [i] of [L] at [x = (L@P)[i]]. *)
Definition spec_row_factor (p : penalty) (eta x : F) : F :=
  match p with
  | tikhonov_penalty => 1
  | tv_penalty => pow (x * x + eps) (opp 3 / 4) * x
  | huber_penalty =>
      pow (sqrt ((x / eta) * (x / eta) + 1) - 1 + eps) (opp 1 / 2)
      * pow ((x / eta) * (x / eta) + 1 + eps) (opp 1 / 2)
      * x
  end.

(** The entry of the penalty Jacobian in row [i], where [l = L[i][j]]. *)
Definition spec_penalty_jacobian (p : penalty) (eta x l : F) : F :=
  match p with
  | tikhonov_penalty => l
  | tv_penalty => (1 / 2) * (spec_row_factor p eta x * l)
  | huber_penalty => ((1 / 2) / (eta * eta)) * (spec_row_factor p eta x * l)
  end.

Lemma zipWith_map_map {A : Type} (f : F -> F -> F) (g h : A -> F)
    (l : list A) :
  zipWith f (map g l) (map h l) = map (fun x => f (g x) (h x)) l.
Proof. induction l as [|a l IH]; simpl; [reflexivity|]. now rewrite IH. Qed.

Lemma zipWith_map_id (f : F -> F -> F) (g : F -> F) (l : vec F) :
  zipWith f (map g l) l = map (fun x => f (g x) x) l.
Proof. induction l as [|a l IH]; simpl; [reflexivity|]. now rewrite IH. Qed.

Lemma scale_rows_map (s : vec F -> F) (A : mat F) :
  scale_rows (map s A) A = map (fun row => vscale (s row) row) A.
Proof. induction A as [|row A IH]; simpl; [reflexivity|]. now rewrite IH. Qed.

(** [_augment] for a recognized type: the penalty rows, one per row of [L]. *)
Definition penalty_rows (p : penalty) (alpha eta : F) (L : mat F) (P : vec F)
  : vec F * mat F :=
  (map (fun row => alpha * spec_penalty_residual p eta (dot row P)) L,
   map (fun row =>
          map (fun l => alpha * spec_penalty_jacobian p eta (dot row P) l) row)
       L).

Lemma augment_recognized (two_quarters : 2 / 4 = 1 / 2)
    (p : penalty) (res : vec F) (J : mat F) (alpha : F) (L : mat F)
    (P : vec F) (eta : F) :
  _augment res J (lit (tag p)) alpha L P eta =
  ([], Val (res ++ fst (penalty_rows p alpha eta L P),
            J ++ snd (penalty_rows p alpha eta L P))).
Proof.
  unfold _augment, penalty_rows.
  destruct p; cbn [tag py_is lit interned chars andb String.eqb Ascii.eqb
                   Bool.eqb];
    rewrite bind_ret; cbn [calls result fst snd ret];
    unfold vscale, mscale, vpow, vadds, vsubs, vsqrt, vsq, vdivs, vmul,
      matvec, sq; cbn [fst snd].
  - rewrite !map_map. reflexivity.
  - rewrite two_quarters. rewrite !map_map.
    rewrite (zipWith_map_map mul
               (fun x => pow (dot x P * dot x P + eps) (opp 3 / 4))
               (fun x => dot x P) L).
    rewrite (scale_rows_map
               (fun x => pow (dot x P * dot x P + eps) (opp 3 / 4) * dot x P)
               L).
    rewrite !map_map. unfold vscale.
    do 2 apply f_equal. apply f_equal2; apply f_equal; [reflexivity|].
    apply map_ext. intros row. rewrite !map_map. reflexivity.
  - rewrite !map_map.
    rewrite (zipWith_map_map mul
               (fun x => pow (sqrt (dot x P / eta * (dot x P / eta) + 1) - 1
                              + eps) (opp 1 / 2))
               (fun x => pow (dot x P / eta * (dot x P / eta) + 1 + eps)
                             (opp 1 / 2)) L).
    rewrite (zipWith_map_map mul _ (fun x => dot x P) L).
    rewrite (scale_rows_map _ L).
    rewrite !map_map. unfold vscale.
    do 2 apply f_equal. apply f_equal2; apply f_equal; [reflexivity|].
    apply map_ext. intros row. rewrite !map_map. reflexivity.
Qed.

(** C4.  For each of the three regularization types, [_augment] returns the
    data residual and Jacobian followed by one penalty row per row of [L]:
    the row count is the number of samples plus the number of rows of [L];
    entry [i] of the penalty residual is [alpha] times [(L@P)[i]] (Tikhonov),
    [((L@P)[i]**2 + eps)**(1/4)] (total variation) or
    [sqrt(sqrt(((L@P)[i]/eta)**2 + 1) - 1)] (pseudo-Huber); row [i] of the
    penalty Jacobian is [alpha] times row [i] of [L] (Tikhonov), times
    [(1/2)*((L@P)[i]**2 + eps)**(-3/4)*(L@P)[i]] more (total variation), or
    times the pseudo-Huber factor whose inner and outer terms are offset by
    [eps].  [two_quarters] relates the source's [2/4] to the [1/2] of the
    statement. *)
Theorem augment_follows_spec (two_quarters : 2 / 4 = 1 / 2)
    (p : penalty) (res : vec F) (J : mat F) (alpha : F) (L : mat F)
    (P : vec F) (eta : F) :
  exists res' J',
    _augment res J (lit (tag p)) alpha L P eta = ([], Val (res', J')) /\
    length res' = (length res + length L)%nat /\
    length J' = (length J + length L)%nat /\
    (forall i, (i < length res)%nat -> nth i res' 0 = nth i res 0) /\
    (forall i, (i < length J)%nat -> nth i J' [] = nth i J []) /\
    (forall i, (i < length L)%nat ->
       nth (length res + i) res' 0 =
       alpha * spec_penalty_residual p eta (nth i (matvec L P) 0)) /\
    (forall i j, (i < length L)%nat -> (j < length (nth i L []))%nat ->
       nth j (nth (length J + i) J' []) 0 =
       alpha * spec_penalty_jacobian p eta (nth i (matvec L P) 0)
                                     (nth j (nth i L []) 0)).
Proof.
  eexists. eexists. split; [apply (augment_recognized two_quarters)|].
  unfold penalty_rows. cbn [fst snd].
  assert (HLP : forall i, (i < length L)%nat ->
                          nth i (matvec L P) 0 = dot (nth i L []) P).
  { intros i Hi. unfold matvec.
    now apply (nth_map_lt (fun row => dot row P) L i 0 []). }
  repeat split.
  - now rewrite length_app, length_map.
  - now rewrite length_app, length_map.
  - intros i Hi. now apply nth_app_left.
  - intros i Hi. now apply nth_app_left.
  - intros i Hi. rewrite nth_app_right, HLP by exact Hi.
    now rewrite (nth_map_lt
                   (fun row => alpha * spec_penalty_residual p eta (dot row P))
                   L i 0 []).
  - intros i j Hi Hj. rewrite nth_app_right, HLP by exact Hi.
    rewrite (nth_map_lt
               (fun row =>
                  map (fun l =>
                         alpha * spec_penalty_jacobian p eta (dot row P) l)
                      row)
               L i [] []) by exact Hi.
    now rewrite (nth_map_lt
                   (fun l =>
                      alpha * spec_penalty_jacobian p eta
                                (dot (nth i L []) P) l)
                   (nth i L []) j 0 0).
Qed.
End AugmentProperties.

Lemma R_two_quarters : @div R _ (of_Z 2) (of_Z 4) = div (of_Z 1) (of_Z 2).
Proof. cbn [div of_Z R_scalar]. lra. Qed.

(** The augmentation of a one-sample residual with the total-variation
    penalty of the first-difference operator, on real numbers. *)
Lemma augment_follows_spec_witness :
  exists res' J',
    _augment [1%R] [[1%R; 0%R]] (lit "tv") 1%R zs_L [0%R; 0%R] 1%R =
    ([], Val (res', J')) /\
    length res' = 2%nat.
Proof.
  destruct (augment_follows_spec R_two_quarters tv_penalty
              [1%R] [[1%R; 0%R]] 1%R zs_L [0%R; 0%R] 1%R)
    as (res' & J' & Haug & Hlen & _).
  exists res', J'. split; [exact Haug|exact Hlen].
Defined.

(** *** The stages of [fitregmodel] *)

Section FitProperties.
Context {F : Type} {SF : Scalar F} {EF : Elementary F} {env : Env F}.
Local Open Scope sc_scope.

(** The hat matrix [K@(pinv(KtKreg)@K.T)]. *)
Definition hat_matrix (K KtKreg : mat F) : mat F :=
  matmul K (matmul (linalg_pinv KtKreg) (T K)).

(** What the evaluator is given for one subset: the signal and the fitted
    signal on the subset, and the subset length minus the trace of [Hm]. *)
Definition gof_record (V Vfit : vec F) (Hm : mat F) (subset : list nat)
  : Stats :=
  goodness_of_fit (take V subset) (take Vfit subset)
                  (len (take V subset) - np_trace Hm).

(** One record is returned as it is, any other number as the list. *)
Definition collapse (l : list Stats) : stats_value :=
  match l with
  | [s] => StatsOne s
  | _ => StatsList l
  end.

(** The statistics of a fit with distribution [P]. *)
Definition stats_of (V : vec F) (K KtKreg : mat F) (P : vec F)
    (subsets : list (list nat)) : stats_value :=
  collapse (map (gof_record V (matvec K P) (hat_matrix K KtKreg)) subsets).

Lemma gof_loop_records (V Vfit : vec F) (Hm : mat F)
    (subsets : list (list nat)) :
  gof_loop V Vfit Hm subsets =
  (repeat c_goodness_of_fit (length subsets),
   Val (map (gof_record V Vfit Hm) subsets)).
Proof.
  induction subsets as [|s rest IH]; [reflexivity|].
  cbn [gof_loop]. rewrite bind_ext, IH, bind_pair_val.
  cbn [calls result fst snd ret]. now rewrite app_nil_r.
Qed.

Lemma fit_gof_records (V : vec F) (K KtKreg : mat F) (P : vec F)
    (subsets : list (list nat)) :
  fit_gof V K KtKreg P subsets =
  (c_linalg_pinv :: repeat c_goodness_of_fit (length subsets),
   Val (stats_of V K KtKreg P subsets)).
Proof.
  unfold fit_gof. rewrite bind_ext, gof_loop_records, bind_pair_val.
  unfold stats_of, collapse, hat_matrix.
  destruct (map _ subsets) as [|s [|s' l]]; cbn [calls result fst snd ret];
    now rewrite app_nil_r.
Qed.

(** The result of [fitregmodel] from the results of its stages. *)
Definition fit_value (o : options) (V : vec F) (K KtKreg : mat F)
    (r P : vec F) (Puq : puq) (subsets : list (list nat)) : fit_result :=
  let P' := fst (fit_renormalize o r P Puq) in
  let Puq' := snd (fit_renormalize o r P Puq) in
  if full_output o then Fit3 P' Puq' (stats_of V K KtKreg P' subsets)
  else Fit2 P' Puq'.

Lemma fitregmodel_stages (fuel : nat) (V0 : RawV) (K0 : RawK) (r : vec F)
    (o : options) (V : vec F) (K : mat F) (w : W)
    (subsets : list (list nat)) (L : mat F) (a : F) (KtKreg : mat F)
    (KtV P : vec F) (Puq : puq) :
  result (fit_prepare V0 K0 r o) = Val (V, K, w, subsets, L, a, KtKreg, KtV) ->
  result (fit_solve fuel o V K L a w KtKreg KtV) = Val P ->
  result (fit_uq o V K L a w r P) = Val Puq ->
  result (fitregmodel fuel V0 K0 r o) =
  Val (fit_value o V K KtKreg r P Puq subsets).
Proof.
  intros Hprep Hsolve Huq. unfold fitregmodel.
  rewrite (bind_val _ _ _ Hprep). cbn [result snd].
  rewrite (bind_val _ _ _ Hsolve). cbn [result snd].
  rewrite (bind_val _ _ _ Huq). cbn [result snd].
  unfold fit_value.
  destruct (fit_renormalize o r P Puq) as [P' Puq'].
  rewrite fit_gof_records, bind_pair_val. cbn [fst snd].
  destruct (full_output o); reflexivity.
Qed.
(** The trace the claim C6 speaks of: the diagonal of [Hm] summed over the
    indices of a subset only. *)
Definition restricted_trace (Hm : mat F) (subset : list nat) : F :=
  vsum (map (fun i => nth i (nth i Hm []) 0) subset).

Lemma diag_from_seq (i : nat) (A : mat F) :
  diag_from i A =
  map (fun k => nth k (nth (k - i) A []) 0) (seq i (length A)).
Proof.
  revert i. induction A as [|row A IH]; intros i; [reflexivity|].
  cbn [diag_from length seq map]. rewrite Nat.sub_diag. cbn [nth].
  f_equal. rewrite IH. apply map_ext_in. intros k Hk.
  apply in_seq in Hk.
  replace (k - i)%nat with (S (k - S i)) by lia. reflexivity.
Qed.

Lemma trace_over_all_rows (Hm : mat F) :
  np_trace Hm = restricted_trace Hm (seq 0 (length Hm)).
Proof.
  unfold np_trace, restricted_trace. rewrite diag_from_seq.
  f_equal. apply map_ext. intros k. now rewrite Nat.sub_0_r.
Qed.

(** C6 (as amended).  For every subset the evaluator is given the signal and
    the fitted signal [K@P] on the subset (with [P] the distribution that is
    returned) and [Ndof = len(V[subset]) - trace(K@pinv(KtKreg)@K.T)], where
    the trace is that of the whole hat matrix, the same for every subset; it
    is the trace over the subset when the subset is all of the rows.  One
    record is returned as a record, not as a list. *)
Theorem gof_inputs (V : vec F) (K KtKreg : mat F) (P : vec F)
    (subsets : list (list nat)) :
  fit_gof V K KtKreg P subsets =
  (c_linalg_pinv :: repeat c_goodness_of_fit (length subsets),
   Val (collapse
          (map (fun subset =>
                  goodness_of_fit
                    (take V subset) (take (matvec K P) subset)
                    (len (take V subset)
                     - np_trace (matmul K (matmul (linalg_pinv KtKreg) (T K)))))
               subsets))) /\
  (forall subset,
      result (fit_gof V K KtKreg P [subset]) =
      Val (StatsOne
             (goodness_of_fit
                (take V subset) (take (matvec K P) subset)
                (len (take V subset) - np_trace (hat_matrix K KtKreg))))) /\
  (forall s1 s2 rest,
      exists l,
        result (fit_gof V K KtKreg P (s1 :: s2 :: rest)) = Val (StatsList l) /\
        length l = length (s1 :: s2 :: rest)) /\
  np_trace (hat_matrix K KtKreg) =
    restricted_trace (hat_matrix K KtKreg)
                     (seq 0 (length (hat_matrix K KtKreg))) /\
  (forall fuel V0 K0 r o w L a KtV P0 Puq,
      result (fit_prepare V0 K0 r o) =
        Val (V, K, w, subsets, L, a, KtKreg, KtV) ->
      result (fit_solve fuel o V K L a w KtKreg KtV) = Val P0 ->
      result (fit_uq o V K L a w r P0) = Val Puq ->
      full_output o = true ->
      P = fst (fit_renormalize o r P0 Puq) ->
      result (fitregmodel fuel V0 K0 r o) =
      Val (Fit3 P (snd (fit_renormalize o r P0 Puq))
                (stats_of V K KtKreg P subsets))).
Proof.
  split; [apply fit_gof_records|].
  split; [intros subset; rewrite fit_gof_records; reflexivity|].
  split.
  { intros s1 s2 rest. rewrite fit_gof_records.
    eexists. split; [reflexivity|]. cbn [map length]. now rewrite length_map. }
  split; [apply trace_over_all_rows|].
  intros fuel V0 K0 r o w L a KtV P0 Puq Hprep Hsolve Huq Hfull ->.
  rewrite (fitregmodel_stages _ _ _ _ _ _ _ _ _ _ _ _ _ _ _ Hprep Hsolve Huq).
  unfold fit_value. now rewrite Hfull.
Qed.

(** C8.  With renormalization and full output, the statistics are those of
    the renormalized distribution: the fitted signal given to the evaluator
    is [K@(P/scale)], where [P] is the solution of the problem and
    [scale = np.trapz(P, r)]. *)
Theorem stats_from_renormalized (fuel : nat) (V0 : RawV) (K0 : RawK)
    (r : vec F) (o : options) (V : vec F) (K : mat F) (w : W)
    (subsets : list (list nat)) (L : mat F) (a : F) (KtKreg : mat F)
    (KtV P : vec F) (Puq : puq) :
  renormalize o = true ->
  full_output o = true ->
  result (fit_prepare V0 K0 r o) = Val (V, K, w, subsets, L, a, KtKreg, KtV) ->
  result (fit_solve fuel o V K L a w KtKreg KtV) = Val P ->
  result (fit_uq o V K L a w r P) = Val Puq ->
  let scale := np_trapz P r in
  exists Puq',
    result (fitregmodel fuel V0 K0 r o) =
    Val (Fit3 (vdivs P scale) Puq'
              (collapse
                 (map (fun subset =>
                         goodness_of_fit
                           (take V subset)
                           (take (matvec K (vdivs P scale)) subset)
                           (len (take V subset)
                            - np_trace (hat_matrix K KtKreg)))
                      subsets))).
Proof.
  intros Hren Hfull Hprep Hsolve Huq scale.
  rewrite (fitregmodel_stages _ _ _ _ _ _ _ _ _ _ _ _ _ _ _ Hprep Hsolve Huq).
  unfold fit_value, fit_renormalize. rewrite Hren, Hfull. fold scale.
  destruct (uqanalysis o); [destruct Puq|]; cbn [fst snd];
    eexists; reflexivity.
Qed.

(** C7.  Renormalizing a distribution whose trapezoidal integral over [r] is
    1 leaves it unchanged, in any arithmetic in which dividing by 1 changes
    nothing. *)
Theorem renormalize_normalized (div_one : forall x : F, x / 1 = x)
    (o : options) (r P : vec F) (Puq : puq) :
  np_trapz P r = 1 ->
  fst (fit_renormalize o r P Puq) = P /\
  vdivs P (np_trapz P r) = P.
Proof.
  intros Hone.
  assert (Hdiv : vdivs P (np_trapz P r) = P).
  { rewrite Hone. unfold vdivs.
    rewrite (map_ext _ (fun e => e) div_one). apply map_id. }
  split; [|exact Hdiv].
  unfold fit_renormalize.
  destruct (renormalize o); [|reflexivity].
  rewrite Hdiv. destruct (uqanalysis o); [destruct Puq|]; reflexivity.
Qed.
End FitProperties.

(** *** Unknown solver tags *)

Section SolverErrors.
Context {F : Type} {SF : Scalar F} {EF : Elementary F} {env : Env F}.
Local Open Scope sc_scope.

(** The external calls of [fit_prepare]. *)
Definition prepare_calls (o : options) : list call :=
  [c_parse_multidatasets; c_regoperator]
  ++ match alpha o with
     | AlphaMethod _ => [c_selregparam]
     | AlphaValue _ => []
     end
  ++ [c_lsqcomponents].

(** The external calls of [_obir] before its loop. *)
Definition obir_setup_calls (noiselevelaim : F) : list call :=
  (if noiselevelaim =? opp 1 then [c_noiselevel] else [])
  ++ [c_lsqcomponents].

Lemma fit_prepare_returns (V0 : RawV) (K0 : RawK) (r : vec F) (o : options) :
  exists x,
    fit_prepare V0 K0 r o = (prepare_calls o, Val x).
Proof.
  unfold fit_prepare, prepare_calls.
  destruct (parse_multidatasets V0 K0 (weights o)) as [[[V K] w] subsets].
  rewrite !bind_ext. cbn [calls result fst snd].
  destruct (alpha o) as [m|a].
  - rewrite bind_ext. cbn [calls result fst snd].
    destruct (lsqcomponents _ _ _ _ _ _ _) as [A b].
    rewrite bind_ext. eexists. reflexivity.
  - rewrite bind_ret. cbn [calls result fst snd].
    destruct (lsqcomponents _ _ _ _ _ _ _) as [A b].
    rewrite bind_ext. eexists. reflexivity.
Qed.

Lemma obir_unknown_solver (fuel : nat) (V : vec F) (K L : mat F)
    (regtype : pystr) (a : F) (w : W) (noiselevelaim huberparam : F)
    (solver : pystr) :
  known_solver solver = false ->
  _obir (S fuel) V K L regtype a w noiselevelaim huberparam solver =
  (obir_setup_calls noiselevelaim, Raise (unknown_solver solver)).
Proof.
  intros Hk. unfold _obir, obir_run, obir_setup, obir_setup_calls.
  destruct (noiselevelaim =? opp 1).
  - rewrite bind_ext. destruct (lsqcomponents _ _ _ _ _ _ _) as [A b].
    rewrite bind_ext. cbn [calls result fst snd ret].
    rewrite bind_pair_val, loop_unfold.
    cbn [obir_init st_Iteration Z.leb Z.compare MaxOuterIter].
    rewrite body_unknown_solver by exact Hk. reflexivity.
  - rewrite bind_ret. destruct (lsqcomponents _ _ _ _ _ _ _) as [A b].
    rewrite bind_ext. cbn [calls result fst snd ret].
    rewrite bind_pair_val, loop_unfold.
    cbn [obir_init st_Iteration Z.leb Z.compare MaxOuterIter].
    rewrite body_unknown_solver by exact Hk. reflexivity.
Qed.

(** A regularization type that is none of the three literals leaves
    [resreg] unassigned: [alpha*resreg] raises [UnboundLocalError]. *)
Lemma augment_unrecognized (res : vec F) (J : mat F) (regtype : pystr)
    (a : F) (L : mat F) (P : vec F) (eta : F) :
  py_is regtype "tikhonov" = false ->
  py_is regtype "tv" = false ->
  py_is regtype "huber" = false ->
  _augment res J regtype a L P eta = ([], Raise (UnboundLocalError "resreg")).
Proof.
  intros H1 H2 H3. unfold _augment. rewrite H1, H2, H3. reflexivity.
Qed.

(** C5 (as amended).  When non-negativity or OBIR is in effect and the
    solver tag is not one of ['fnnls'], ['nnlsbpp'], ['cvx'], the fit raises
    [KeyError] with a message that starts with the tag.  The error comes
    after the datasets are parsed, the regularization operator, the
    regularization parameter and the normal equations are computed (and, with
    OBIR, the noise level and the normal equations once more), and before any
    solver is called.  With neither non-negativity nor OBIR the solver tag is
    not looked at. *)
Theorem unknown_solver_raises (fuel : nat) (V0 : RawV) (K0 : RawK)
    (r : vec F) (o : options) :
  known_solver (solver o) = false ->
  obir o || nonnegativity o = true ->
  result (fitregmodel (S fuel) V0 K0 r o) =
    Raise (KeyError (chars (solver o)
                     ++ " is not a known non-negative least squares solver")) /\
  calls (fitregmodel (S fuel) V0 K0 r o) =
    prepare_calls o
    ++ (if obir o then obir_setup_calls (noiselevelaim o) else []) /\
  passes (calls (fitregmodel (S fuel) V0 K0 r o)) = 0%nat /\
  (forall o' V K L a w KtKreg KtV,
      obir o' = false -> nonnegativity o' = false ->
      fit_solve fuel o' V K L a w KtKreg KtV =
      ([c_linalg_solve], Val (linalg_solve KtKreg KtV))).
Proof.
  intros Hk Hmode.
  assert (Hrun :
    fitregmodel (S fuel) V0 K0 r o =
    (prepare_calls o
     ++ (if obir o then obir_setup_calls (noiselevelaim o) else []),
     Raise (unknown_solver (solver o)))).
  { unfold fitregmodel.
    destruct (fit_prepare_returns V0 K0 r o) as [x Hx]. rewrite Hx.
    rewrite bind_pair_val.
    destruct x as [[[[[[[V K] w] subsets] L] a] KtKreg] KtV].
    unfold fit_solve, classify.
    destruct (obir o).
    - rewrite obir_unknown_solver by exact Hk. reflexivity.
    - cbn [orb] in Hmode. rewrite Hmode.
      rewrite nnls_solve_unknown by exact Hk.
      reflexivity. }
  rewrite Hrun. cbn [result calls fst snd].
  split; [reflexivity|]. split; [reflexivity|]. split.
  - unfold prepare_calls, obir_setup_calls.
    destruct (alpha o), (obir o); try destruct (noiselevelaim o =? opp 1);
      reflexivity.
  - intros o' V K L a w KtKreg KtV Hobir Hnn.
    unfold fit_solve, classify. rewrite Hobir, Hnn. reflexivity.
Qed.
End SolverErrors.

(** *** Fits of the zero signal on real numbers *)

Module ZeroSignalFitR.
Import ZeroSignalR.
Local Open Scope R_scope.
#[local] Existing Instance zero_signal_env.

(** Keyword arguments: Tikhonov regularization with [alpha = 1], unit weight,
    no uncertainty analysis, full output. *)
Definition zs_options (solver : pystr) (nonnegativity obir renormalize : bool)
  : @options R zero_signal_env :=
  {| regtype := tikhonov;
     alpha := AlphaValue 1;
     regorder := 1%Z;
     solver := solver;
     weights := 1;
     huberparam := huber_default;
     nonnegativity := nonnegativity;
     obir := obir;
     uqanalysis := false;
     renormalize := renormalize;
     noiselevelaim := -1;
     full_output := true |}.

Definition foo : pystr := lit "foo".

(** [fitregmodel(V, K, r, ...)] on the distance axis of the problem. *)
Definition zs_fit (fuel : nat) (V0 : list (vec R)) (K0 : list (mat R))
    (o : @options R zero_signal_env)
  : M (@fit_result R zero_signal_env) :=
  fitregmodel (env := zero_signal_env) fuel V0 K0 zs_r o.

(** C5, as stated, fails: with non-negativity and OBIR off, a fit with the
    solver tag ['foo'] returns; with non-negativity on, the [KeyError] comes
    after the external calls that build the problem. *)
Lemma unknown_solver_not_rejected :
  known_solver foo = false /\
  (exists P Puq stats,
      result (zs_fit 0 zs_one_V zs_one_K
                          (zs_options foo false false false)) =
      Val (Fit3 P Puq stats)) /\
  zs_fit 0 zs_one_V zs_one_K (zs_options foo true false false) =
  ([c_parse_multidatasets; c_regoperator; c_lsqcomponents],
   Raise (KeyError "foo is not a known non-negative least squares solver")).
Proof.
  split; [reflexivity|]. split; [|reflexivity].
  do 3 eexists. reflexivity.
Qed.

Lemma unknown_solver_raises_witness :
  result (zs_fit 1 zs_one_V zs_one_K
                      (zs_options foo true false false)) =
  Raise (KeyError "foo is not a known non-negative least squares solver").
Proof.
  apply (unknown_solver_raises (env := zero_signal_env) 0 zs_one_V zs_one_K
           zs_r (zs_options foo true false false)).
  - reflexivity.
  - reflexivity.
Defined.

(** The [Ndof] the claim C6 speaks of, with the trace over the subset. *)
Definition claimed_Ndof (V : vec R) (Hm : mat R) (subset : list nat) : R :=
  len (take V subset) - restricted_trace Hm subset.

(** The hat matrix of the problem, and the [Ndof] of line 166. *)
Definition zs_hat : mat R :=
  hat_matrix (env := zero_signal_env) zs_K
             (fst (normal_equations zs_V zs_K zs_L 1)).

Definition code_Ndof (subset : list nat) : R :=
  len (take zs_V subset) - np_trace zs_hat.

(** C6, as stated, fails: the zero signal given as two datasets of one
    sample.  The hat matrix is [[2/3, 1/3], [1/3, 2/3]]; for the first
    dataset the evaluator gets [Ndof = 1 - 4/3], not [1 - 2/3]. *)
Lemma ndof_uses_full_trace :
  (exists P Puq (Vs Vfit : vec R) (s1 : vec R * vec R * R),
      result (zs_fit 0 zs_two_V zs_two_K (zs_options cvx true false false)) =
      Val (Fit3 P Puq
             (@StatsList R zero_signal_env
                [(Vs, Vfit, code_Ndof [0%nat]); s1]))) /\
  code_Ndof [0%nat] = 1 - 4 / 3 /\
  claimed_Ndof zs_V zs_hat [0%nat] = 1 - 2 / 3 /\
  code_Ndof [0%nat] <> claimed_Ndof zs_V zs_hat [0%nat].
Proof.
  split; [do 5 eexists; reflexivity|].
  cbv [code_Ndof claimed_Ndof restricted_trace zs_hat hat_matrix linalg_pinv
       zero_signal_env zs_pinv zs_K zs_V T ncols transpose matmul matvec
       map dot vmul zipWith vsum fold_left len take length nth repeat
       np_trace diag_from Z.of_nat Pos.of_succ_nat Pos.succ
       add sub mul div of_Z R_scalar].
  repeat split; lra.
Qed.

Lemma R_div_one (x : R) : @div R _ x (of_Z 1) = x.
Proof. cbn [div of_Z R_scalar]. lra. Qed.

(** The distribution [[1, 1]] on the axis [[0, 1]] has integral 1. *)
Lemma renormalize_normalized_witness :
  fst (fit_renormalize (zs_options cvx true false true) [0; 1] [1; 1]
                       PuqEmpty) = [1; 1].
Proof.
  apply (renormalize_normalized (env := zero_signal_env) R_div_one
           (zs_options cvx true false true) [0; 1] [1; 1] PuqEmpty).
  cbv [np_trapz np_diff vmul vadd vdivs zipWith tl removelast map vsum
       fold_left add sub mul div of_Z R_scalar].
  lra.
Defined.

Lemma stats_from_renormalized_witness :
  exists P Puq stats,
    result (zs_fit 0 zs_one_V zs_one_K (zs_options cvx true false true)) =
    Val (Fit3 P Puq stats).
Proof.
  edestruct (stats_from_renormalized (env := zero_signal_env) 0
               zs_one_V zs_one_K zs_r (zs_options cvx true false true))
    as [Puq' Hfit];
    [reflexivity|reflexivity|reflexivity|reflexivity|reflexivity|].
  do 3 eexists. exact Hfit.
Defined.
End ZeroSignalFitR.

(** *** Renormalization in binary64 arithmetic *)

Module Float64.
Local Open Scope float_scope.

Definition not_finite (x : float) : Prop := PrimFloat.is_finite x = false.

(** The distribution of a returned tuple. *)
Definition returned_P {env : Env float} (res : fit_result) : vec float :=
  match res with
  | Fit2 P _ => P
  | Fit3 P _ _ => P
  end.

Lemma eqb_zero_inv (y : float) :
  (y =? 0) = true -> exists s, Prim2SF y = S754_zero s.
Proof.
  rewrite eqb_spec. change (Prim2SF 0) with (S754_zero false).
  destruct (Prim2SF y) as [s|[]| |[] m e]; cbn; try discriminate; eauto.
Qed.

Lemma is_finite_spec (z : float) :
  PrimFloat.is_finite z =
  match Prim2SF z with
  | S754_nan | S754_infinity _ => false
  | _ => true
  end.
Proof.
  unfold PrimFloat.is_finite, PrimFloat.is_nan, PrimFloat.is_infinity.
  rewrite !eqb_spec, abs_spec.
  change (Prim2SF infinity) with (S754_infinity false).
  destruct (Prim2SF z) as [s|s| |s m e]; try reflexivity.
  - destruct s; reflexivity.
  - unfold SFeqb, SFabs, SFcompare.
    rewrite Z.compare_refl, Pos.compare_cont_refl.
    destruct s; reflexivity.
Qed.

(** Whatever is divided by a zero, the quotient is an infinity or NaN. *)
Lemma div_zero_not_finite (x y : float) :
  (y =? 0) = true -> not_finite (x / y).
Proof.
  intros Hy. destruct (eqb_zero_inv y Hy) as [s Hs].
  unfold not_finite. rewrite is_finite_spec, div_spec, Hs.
  destruct (Prim2SF x); reflexivity.
Qed.

(** C10.  When the trapezoidal integral of the fitted distribution is zero,
    renormalization divides every entry by that zero: nothing guards the
    division and no exception is raised, the fit goes on to return, and every
    entry of the returned distribution is an infinity or NaN. *)
Theorem renormalize_zero_integral (env : Env float) (o : @options float env)
    (r P : vec float) (Puq : puq) :
  renormalize o = true ->
  (np_trapz P r =? 0) = true ->
  Forall not_finite (fst (fit_renormalize o r P Puq)) /\
  length (fst (fit_renormalize o r P Puq)) = length P /\
  (forall (EF : Elementary float) fuel V0 K0 V K w subsets L a KtKreg KtV,
      result (fit_prepare V0 K0 r o) =
        Val (V, K, w, subsets, L, a, KtKreg, KtV) ->
      result (fit_solve fuel o V K L a w KtKreg KtV) = Val P ->
      result (fit_uq o V K L a w r P) = Val Puq ->
      exists res,
        result (fitregmodel fuel V0 K0 r o) = Val res /\
        returned_P res = fst (fit_renormalize o r P Puq)).
Proof.
  intros Hren Hzero.
  assert (HP : fst (fit_renormalize o r P Puq) = vdivs P (np_trapz P r)).
  { unfold fit_renormalize. rewrite Hren.
    destruct (uqanalysis o); [destruct Puq|]; reflexivity. }
  split; [|split].
  - rewrite HP. unfold vdivs. apply Forall_map, Forall_forall.
    intros x _. now apply div_zero_not_finite.
  - rewrite HP. unfold vdivs. apply length_map.
  - intros EF fuel V0 K0 V K w subsets L a KtKreg KtV Hprep Hsolve Huq.
    rewrite (fitregmodel_stages _ _ _ _ _ _ _ _ _ _ _ _ _ _ _
               Hprep Hsolve Huq).
    eexists. split; [reflexivity|].
    unfold fit_value. destruct (full_output o); reflexivity.
Qed.

(** The zero distribution on the axis [[1, 2]]. *)
Lemma renormalize_zero_integral_witness :
  Forall not_finite
    (fst (fit_renormalize
            (Options (env := zero_signal_env) (lit "tikhonov") (AlphaValue 1)
                     1%Z (lit "cvx") 1 0x1.599999999999ap+0 true false false true (-1) false)
            [1; 2] [0; 0] PuqEmpty)).
Proof.
  apply (renormalize_zero_integral zero_signal_env).
  - reflexivity.
  - reflexivity.
Defined.
End Float64.

(** ** Further properties of [_obir] *)

Section ObirInvariants.
Context {F : Type} {SF : Scalar F} {EF : Elementary F} {env : Env F}.
Variables (V : vec F) (K L : mat F) (regtype : pystr) (weights : W)
          (noiselevelaim huberparam : F) (solver : pystr).
Local Open Scope sc_scope.

Local Notation body :=
  (obir_body V K L regtype weights noiselevelaim huberparam solver).
Local Notation loop :=
  (obir_loop V K L regtype weights noiselevelaim huberparam solver).
Local Notation std_of P := (np_std (vsub (matvec K P) V)).

(** What a pass leaves behind, whichever branch it takes: the state it
    continues with, or the distribution it breaks with. *)
Lemma body_cases (halt : bool) (st : obir_state) :
  (exists e, body halt st = ([], Raise e)) \/
  exists l P,
    nnls_solve solver (st_KtKreg st) (vsub (st_KtV st) (st_subGrad st)) =
      (l, Val P) /\
    known_solver solver = true /\
    P = nnls_value solver (st_KtKreg st) (vsub (st_KtV st) (st_subGrad st)) /\
    ((st_Iteration st = 1%Z /\
      body halt st = (l ++ (if noiselevelaim >? std_of P
                            then [c_lsqcomponents] else []),
                      Val (spec_warmup V K L regtype weights noiselevelaim
                                       huberparam st P))) \/
     (st_Iteration st <> 1%Z /\
      body halt st = (l, Val (spec_refining V K weights noiselevelaim halt
                                            st P)))).
Proof.
  destruct (known_solver solver) eqn:Hk.
  - right.
    destruct (nnls_solve_known solver (st_KtKreg st)
                (vsub (st_KtV st) (st_subGrad st)) Hk) as [HP _].
    exists (calls (nnls_solve solver (st_KtKreg st)
                     (vsub (st_KtV st) (st_subGrad st)))).
    eexists. split; [rewrite <- HP; apply comp_eta|].
    split; [reflexivity|]. split; [reflexivity|].
    destruct (Z.eq_dec (st_Iteration st) 1) as [Hit|Hit].
    + left. split; [exact Hit|]. now apply body_warmup.
    + right. split; [exact Hit|]. now apply body_refining.
  - left. eexists. now apply body_unknown_solver.
Qed.

(** An invariant of the states and a condition on the exits carry over to
    whatever the loop returns. *)
Lemma loop_invariant (halt : bool) (Inv : obir_state -> Prop)
    (Post : loop_exit -> vec F -> Prop) :
  (forall st, Inv st -> (MaxOuterIter < st_Iteration st)%Z ->
              Post cond_false (st_Pfit st)) ->
  (forall st r, Inv st -> result (body halt st) = Val r ->
                match r with
                | Continue st' => Inv st'
                | Break how P => Post how P
                end) ->
  forall fuel st, Inv st ->
    match result (loop halt fuel st) with
    | Val (how, P) => Post how P
    | _ => True
    end.
Proof.
  intros Hexit Hstep fuel.
  induction fuel as [|fuel IH]; intros st Hinv.
  - cbn [obir_loop].
    destruct (Z.leb_spec (st_Iteration st) MaxOuterIter) as [Hc|Hc];
      [exact I|]. now apply Hexit.
  - rewrite loop_unfold.
    destruct (Z.leb_spec (st_Iteration st) MaxOuterIter) as [Hc|Hc];
      [|now apply Hexit].
    specialize (Hstep st).
    destruct (body halt st) as [l [r|e|]]; cbn [result snd] in *;
      [|exact I|exact I].
    rewrite bind_pair_val. cbn [result snd].
    specialize (Hstep r Hinv eq_refl).
    destruct r as [st'|how P].
    + now apply IH.
    + exact Hstep.
Qed.

Lemma loop_exit_tells_convergence (fuel : nat) (st : obir_state) :
  (st_Iteration st <= MaxOuterIter)%Z ->
  match result (loop stopDivergent fuel st) with
  | Val (break_semiconverged, P) => (noiselevelaim >? std_of P) = true
  | Val (cond_false, P) => (noiselevelaim >? std_of P) = false
  | Val (break_diverged, _) => False
  | _ => True
  end.
Proof.
  intros Hstart.
  pose proof
    (loop_invariant stopDivergent
       (fun st => (MaxOuterIter < st_Iteration st)%Z ->
                  (noiselevelaim >? std_of (st_Pfit st)) = false)
       (fun how P =>
          match how with
          | break_semiconverged => (noiselevelaim >? std_of P) = true
          | cond_false => (noiselevelaim >? std_of P) = false
          | break_diverged => False
          end)) as Hloop.
  cbv beta in Hloop.
  assert (Hres := Hloop (fun st Hinv Hc => Hinv Hc)). clear Hloop.
  match type of Hres with
  | ?step -> _ => assert (Hstep : step)
  end.
  { clear Hres. intros st0 r Hinv Hr.
    destruct (body_cases stopDivergent st0)
      as [[e He]|(l & P & _ & _ & _ & [[Hit Hb]|[Hit Hb]])];
      rewrite ?He, ?Hb in Hr; cbn [result snd] in Hr; [discriminate| |].
    - injection Hr as <-. unfold spec_warmup.
      destruct (noiselevelaim >? std_of P); cbn [st_Iteration st_Pfit];
        rewrite Hit; unfold MaxOuterIter; intros; lia.
    - injection Hr as <-. unfold spec_refining, stopDivergent.
      destruct (noiselevelaim >? std_of P) eqn:Hs; [exact Hs|].
      cbn [andb st_Iteration st_Pfit]. intros _. exact Hs. }
  specialize (Hres Hstep fuel st (fun Hc => ltac:(lia))).
  destruct (result (loop stopDivergent fuel st)) as [[[| |] P]| |];
    exact Hres.
Qed.

Lemma loop_returns_solver_output (halt : bool) (fuel : nat)
    (st : obir_state) :
  st_Iteration st = 1%Z ->
  match result (loop halt fuel st) with
  | Val (_, P) =>
      known_solver solver = true /\
      exists A b, P = nnls_value solver A b
  | _ => True
  end.
Proof.
  intros Hstart.
  pose proof
    (loop_invariant halt
       (fun st => st_Iteration st <> 1%Z ->
                  known_solver solver = true /\
                  exists A b, st_Pfit st = nnls_value solver A b)
       (fun _ P => known_solver solver = true /\
                   exists A b, P = nnls_value solver A b)) as Hloop.
  cbv beta in Hloop.
  assert (Hres := Hloop (fun st Hinv Hc =>
                           Hinv ltac:(unfold MaxOuterIter in Hc; lia))).
  clear Hloop.
  match type of Hres with
  | ?step -> _ => assert (Hstep : step)
  end.
  { clear Hres. intros st0 r Hinv Hr.
    destruct (body_cases halt st0)
      as [[e He]|(l & P & _ & Hk & HP & [[Hit Hb]|[Hit Hb]])];
      rewrite ?He, ?Hb in Hr; cbn [result snd] in Hr; [discriminate| |].
    - injection Hr as <-. unfold spec_warmup.
      destruct (noiselevelaim >? std_of P); cbn [st_Iteration st_Pfit];
        intros _; (split; [exact Hk|eauto]).
    - injection Hr as <-. unfold spec_refining.
      destruct (noiselevelaim >? std_of P); [split; [exact Hk|eauto]|].
      destruct (halt && _)%bool; [now apply Hinv|].
      cbn [st_Iteration st_Pfit]. intros _. split; [exact Hk|eauto]. }
  specialize (Hres Hstep fuel st (fun Hc => ltac:(congruence))).
  destruct (result (loop halt fuel st)) as [[how P]| |]; exact Hres.
Qed.
End ObirInvariants.

Section ObirRunProperties.
Context {F : Type} {SF : Scalar F} {EF : Elementary F} {env : Env F}.
Variables (V : vec F) (K L : mat F) (regtype : pystr) (alpha : F)
          (weights : W) (noiselevelaim huberparam : F) (solver : pystr).
Local Open Scope sc_scope.

(** The noise level the loop aims at: the argument, or the estimate of
    [noiselevel] when the argument is [-1]. *)
Definition noise_target : F :=
  if noiselevelaim =? opp 1 then noiselevel V else noiselevelaim.

(** The state the loop starts from. *)
Definition obir_start : obir_state :=
  obir_init alpha L
    (fst (lsqcomponents V K L alpha weights regtype huberparam))
    (snd (lsqcomponents V K L alpha weights regtype huberparam)).

Lemma obir_run_unfold (fuel : nat) :
  obir_run fuel V K L regtype alpha weights noiselevelaim huberparam solver =
  (obir_setup_calls noiselevelaim
   ++ calls (obir_loop V K L regtype weights noise_target huberparam solver
                       stopDivergent fuel obir_start),
   result (obir_loop V K L regtype weights noise_target huberparam solver
                     stopDivergent fuel obir_start)).
Proof.
  unfold obir_run, obir_setup, obir_setup_calls, noise_target, obir_start.
  destruct (noiselevelaim =? opp 1).
  - rewrite bind_ext. destruct (lsqcomponents _ _ _ _ _ _ _) as [A b].
    rewrite bind_ext. cbn [calls result fst snd ret].
    rewrite bind_pair_val. reflexivity.
  - rewrite bind_ret. destruct (lsqcomponents _ _ _ _ _ _ _) as [A b].
    rewrite bind_ext. cbn [calls result fst snd ret].
    rewrite bind_pair_val. reflexivity.
Qed.

(** X1.  What the way the loop of [_obir] was left says about the
    distribution returned: left by semiconvergence, the residual deviation
    [std(K@P - V)] is below the noise target; left by its condition (the
    counter past 5000), it is not; and the loop is left in no other way. *)
Theorem obir_exit_tells_convergence (fuel : nat) :
  match result (obir_run fuel V K L regtype alpha weights noiselevelaim
                         huberparam solver) with
  | Val (break_semiconverged, P) =>
      (noise_target >? np_std (vsub (matvec K P) V)) = true
  | Val (cond_false, P) =>
      (noise_target >? np_std (vsub (matvec K P) V)) = false
  | Val (break_diverged, _) => False
  | _ => True
  end.
Proof.
  rewrite obir_run_unfold. cbn [result snd].
  apply loop_exit_tells_convergence. discriminate.
Qed.

(** X2.  A distribution [_obir] returns is what the solver chain returned
    for some matrix and right-hand side, with a known solver tag; it is not
    the vector of zeros the loop starts from. *)
Theorem obir_returns_solver_output (fuel : nat) :
  match result (_obir fuel V K L regtype alpha weights noiselevelaim
                      huberparam solver) with
  | Val P =>
      known_solver solver = true /\
      exists A b, P = nnls_value solver A b
  | _ => True
  end.
Proof.
  unfold _obir. rewrite obir_run_unfold.
  pose proof (loop_returns_solver_output V K L regtype weights noise_target
                huberparam solver stopDivergent fuel obir_start eq_refl)
    as Hloop.
  destruct (result (obir_loop _ _ _ _ _ _ _ _ _ _ _)) as [[how P]|e|];
    unfold bind; cbn [result fst snd ret]; [exact Hloop|exact I|exact I].
Qed.
End ObirRunProperties.

Section ObirWarmup.
Context {F : Type} {SF : Scalar F} {EF : Elementary F} {env : Env F}.
Variables (V : vec F) (K L : mat F) (regtype : pystr) (weights : W)
          (noiselevelaim huberparam : F) (solver : pystr).
Local Open Scope sc_scope.

Local Notation body :=
  (obir_body V K L regtype weights noiselevelaim huberparam solver).
Local Notation loop :=
  (obir_loop V K L regtype weights noiselevelaim huberparam solver).

Lemma nnls_solve_no_rebuild (A : mat F) (b : vec F) :
  ~ In c_lsqcomponents (calls (nnls_solve solver A b)).
Proof.
  unfold nnls_solve.
  destruct (py_eq solver "fnnls"); [cbn; intuition discriminate|].
  destruct (py_eq solver "nnlsbpp"); [cbn; intuition discriminate|].
  destruct (py_eq solver "cvx"); cbn; intuition discriminate.
Qed.

(** X3.  Once the iteration counter has left 1, [lsqcomponents] is never
    called again: the regularization parameter and the normal equations that
    the warmup passes left are the ones every later pass solves with. *)
Theorem refining_never_rebuilds (halt : bool) (fuel : nat)
    (st : obir_state) :
  (2 <= st_Iteration st)%Z ->
  ~ In c_lsqcomponents (calls (loop halt fuel st)).
Proof.
  revert st. induction fuel as [|fuel IH]; intros st Hit.
  - cbn [obir_loop]. destruct (st_Iteration st <=? MaxOuterIter)%Z;
      cbn; tauto.
  - rewrite loop_unfold.
    destruct (st_Iteration st <=? MaxOuterIter)%Z; [|cbn; tauto].
    destruct (body_cases V K L regtype weights noiselevelaim huberparam
                solver halt st)
      as [[e He]|(l & P & Hs & _ & _ & [[Hone _]|[_ Hb]])];
      [rewrite He; cbn; tauto|lia|].
    rewrite Hb, bind_pair_val. cbn [calls fst].
    assert (Hl : ~ In c_lsqcomponents l).
    { pose proof (nnls_solve_no_rebuild (st_KtKreg st)
                    (vsub (st_KtV st) (st_subGrad st))) as Hn.
      now rewrite Hs in Hn. }
    intros Hin. apply in_app_or in Hin. destruct Hin as [Hin|Hin];
      [now apply Hl|].
    unfold spec_refining in Hin.
    destruct (noiselevelaim >? _); [cbn in Hin; tauto|].
    destruct (halt && _)%bool; [cbn in Hin; tauto|].
    revert Hin. apply IH. cbn [st_Iteration]. lia.
Qed.

(** [n] passes in a row that each start and end with the iteration counter
    at 1. *)
Inductive warmup_passes (halt : bool)
  : nat -> obir_state -> obir_state -> Prop :=
| warmup_none (st : obir_state) : warmup_passes halt O st st
| warmup_more (n : nat) (st st' st'' : obir_state) :
    st_Iteration st = 1%Z ->
    result (body halt st) = Val (Continue st') ->
    st_Iteration st' = 1%Z ->
    warmup_passes halt n st' st'' ->
    warmup_passes halt (S n) st st''.

Lemma warmup_pass_inflates (halt : bool) (st st' : obir_state) :
  st_Iteration st = 1%Z ->
  result (body halt st) = Val (Continue st') ->
  st_Iteration st' = 1%Z ->
  st_alpha st' = st_alpha st * of_Z (2 ^ st_Counter st) /\
  st_Counter st' = (st_Counter st + 1)%Z.
Proof.
  intros Hit Hr Hit'.
  destruct (body_cases V K L regtype weights noiselevelaim huberparam
              solver halt st)
    as [[e He]|(l & P & _ & _ & _ & [[_ Hb]|[Hne _]])];
    [rewrite He in Hr; discriminate| |congruence].
  rewrite Hb in Hr. cbn [result snd] in Hr. unfold spec_warmup in Hr.
  destruct (noiselevelaim >? _); injection Hr as Hst; subst st';
    cbn [st_Iteration st_alpha st_Counter] in *;
    [split; reflexivity|lia].
Qed.

(** X5.  The first pass solves the problem with the right-hand side [KtV]
    itself, the subgradient being zero: where subtracting zero changes
    nothing, its distribution is the one the non-negative fit without OBIR
    computes from the same normal equations. *)
Theorem first_pass_unshifted (sub_zero : forall x : F, x - 0 = x)
    (alpha : F) (KtKreg : mat F) (KtV : vec F) :
  length KtV = ncols L ->
  nnls_solve solver (st_KtKreg (obir_init alpha L KtKreg KtV))
             (vsub (st_KtV (obir_init alpha L KtKreg KtV))
                   (st_subGrad (obir_init alpha L KtKreg KtV))) =
  nnls_solve solver KtKreg KtV.
Proof.
  intros Hlen. cbn [obir_init st_KtKreg st_KtV st_subGrad].
  rewrite <- Hlen. f_equal.
  clear Hlen. induction KtV as [|x b IH]; [reflexivity|].
  cbn [length zeros repeat vsub zipWith]. rewrite sub_zero. f_equal.
  exact IH.
Qed.
End ObirWarmup.

Fixpoint counter_sum (c n : nat) : nat :=
  match n with
  | O => O
  | S k => c + counter_sum (S c) k
  end.

Lemma counter_sum_closed (c n : nat) :
  (2 * counter_sum c n = n * (2 * c + n - 1))%nat.
Proof.
  revert c. induction n as [|n IH]; intros c; [reflexivity|].
  cbn [counter_sum]. specialize (IH (S c)). nia.
Qed.

Lemma warmup_alpha_general (env : Env R) (V : vec R) (K L : mat R)
    (regtype : pystr) (weights : W) (noiselevelaim huberparam : R)
    (solver : pystr) (halt : bool) (n : nat) (st st' : obir_state) :
  warmup_passes V K L regtype weights noiselevelaim huberparam solver halt
                n st st' ->
  forall c : nat,
    st_Counter st = Z.of_nat c ->
    st_alpha st' = (st_alpha st * 2 ^ counter_sum c n)%R /\
    st_Counter st' = Z.of_nat (c + n).
Proof.
  induction 1 as [st|n st st1 st2 Hit Hr Hit1 _ IH]; intros c Hc.
  - cbn [counter_sum]. split; [simpl; lra|]. rewrite Hc. f_equal. lia.
  - destruct (warmup_pass_inflates _ _ _ _ _ _ _ _ _ _ _ Hit Hr Hit1)
      as [Ha Hcnt].
    destruct (IH (S c)) as [Ha2 Hc2]; [rewrite Hcnt, Hc; lia|].
    split.
    + rewrite Ha2, Ha, Hc. cbn [mul of_Z R_scalar counter_sum].
      rewrite pow_add, <- pow_IZR. lra.
    + rewrite Hc2. f_equal. lia.
Qed.

(** X4.  In exact arithmetic, [n] warmup passes that each find the residual
    below the noise target multiply [alpha] by [2**1 * 2**2 * ... * 2**n],
    that is by [2**(n*(n+1)/2)], not by [2**n]: [alpha] is multiplied by
    [2**Counter] with [Counter] counting up from 1. *)
Theorem warmup_alpha_growth (env : Env R) (V : vec R) (K L : mat R)
    (regtype : pystr) (weights : W) (noiselevelaim huberparam : R)
    (solver : pystr) (halt : bool) (n : nat) (st st' : obir_state) :
  warmup_passes V K L regtype weights noiselevelaim huberparam solver halt
                n st st' ->
  st_Counter st = 1%Z ->
  exists e : nat,
    (2 * e = n * (n + 1))%nat /\
    st_alpha st' = (st_alpha st * 2 ^ e)%R /\
    st_Counter st' = (Z.of_nat n + 1)%Z.
Proof.
  intros Hchain Hc.
  destruct (warmup_alpha_general env V K L regtype weights noiselevelaim
              huberparam solver halt n st st' Hchain 1 Hc) as [Ha Hcnt].
  exists (counter_sum 1 n). split; [|split].
  - rewrite counter_sum_closed. nia.
  - exact Ha.
  - rewrite Hcnt. lia.
Qed.

(** ** Further properties of [fitregmodel] *)

Section FitRuns.
Context {F : Type} {SF : Scalar F} {EF : Elementary F} {env : Env F}.
Local Open Scope sc_scope.

(** The keyword arguments with another [full_output], another
    [nonnegativity]. *)
Definition with_full_output (o : options) (b : bool) : options :=
  Options (regtype o) (alpha o) (regorder o) (solver o) (weights o)
          (huberparam o) (nonnegativity o) (obir o) (uqanalysis o)
          (renormalize o) (noiselevelaim o) b.

Definition with_nonnegativity (o : options) (b : bool) : options :=
  Options (regtype o) (alpha o) (regorder o) (solver o) (weights o)
          (huberparam o) b (obir o) (uqanalysis o)
          (renormalize o) (noiselevelaim o) (full_output o).

(** [fitregmodel] up to its [return]. *)
Definition fit_body (fuel : nat) (V0 : RawV) (K0 : RawK) (r : vec F)
    (o : options) : M (vec F * puq * stats_value) :=
  '(V, K, w, subsets, L, a, KtKreg, KtV) <- fit_prepare V0 K0 r o ;;
  Pfit <- fit_solve fuel o V K L a w KtKreg KtV ;;
  Puq <- fit_uq o V K L a w r Pfit ;;
  stats <- fit_gof V K KtKreg (fst (fit_renormalize o r Pfit Puq)) subsets ;;
  ret (fst (fit_renormalize o r Pfit Puq),
       snd (fit_renormalize o r Pfit Puq), stats).

Lemma bind_assoc {A B C} (m : M A) (k : A -> M B) (h : B -> M C) :
  bind (bind m k) h = bind m (fun a => bind (k a) h).
Proof.
  destruct m as [l [a| |]]; unfold bind; cbn [fst snd]; try reflexivity.
  destruct (k a) as [l' [b| |]]; cbn [fst snd]; try reflexivity.
  now rewrite app_assoc.
Qed.

Lemma bind_ext_fun {A B} (m : M A) (k k' : A -> M B) :
  (forall a, k a = k' a) -> bind m k = bind m k'.
Proof.
  intros Hk. destruct m as [l [a| |]]; unfold bind; cbn [fst snd];
    try reflexivity. now rewrite Hk.
Qed.

Lemma fitregmodel_body (fuel : nat) (V0 : RawV) (K0 : RawK) (r : vec F)
    (o : options) :
  fitregmodel fuel V0 K0 r o =
  x <- fit_body fuel V0 K0 r o ;;
  if full_output o then ret (Fit3 (fst (fst x)) (snd (fst x)) (snd x))
  else ret (Fit2 (fst (fst x)) (snd (fst x))).
Proof.
  unfold fitregmodel, fit_body.
  rewrite bind_assoc. apply bind_ext_fun.
  intros [[[[[[[V K] w] subsets] L] a] KtKreg] KtV].
  rewrite bind_assoc. apply bind_ext_fun. intros Pfit.
  rewrite bind_assoc. apply bind_ext_fun. intros Puq.
  destruct (fit_renormalize o r Pfit Puq) as [P' Puq'].
  rewrite bind_assoc. apply bind_ext_fun. intros stats.
  rewrite bind_ret. cbn [fst snd].
  destruct (full_output o); reflexivity.
Qed.

(** X10.  [full_output] only selects what is returned: with it on or off the
    fit makes the same external calls (the goodness of fit is evaluated
    either way), ends the same way, and returns the same distribution and
    uncertainty. *)
Theorem full_output_only_selects (fuel : nat) (V0 : RawV) (K0 : RawK)
    (r : vec F) (o : options) :
  calls (fitregmodel fuel V0 K0 r (with_full_output o true)) =
  calls (fitregmodel fuel V0 K0 r (with_full_output o false)) /\
  match result (fitregmodel fuel V0 K0 r (with_full_output o true)),
        result (fitregmodel fuel V0 K0 r (with_full_output o false)) with
  | Val (Fit3 P u _), Val (Fit2 P' u') => P = P' /\ u = u'
  | Raise e, Raise e' => e = e'
  | OutOfFuel, OutOfFuel => True
  | _, _ => False
  end.
Proof.
  rewrite !fitregmodel_body. cbn [full_output with_full_output].
  change (fit_body fuel V0 K0 r (with_full_output o true))
    with (fit_body fuel V0 K0 r (with_full_output o false)).
  destruct (fit_body fuel V0 K0 r (with_full_output o false))
    as [l [[[P u] s]| |]]; unfold bind; cbn [calls result fst snd ret];
    split; try reflexivity; split; reflexivity.
Qed.

(** X12.  OBIR takes precedence over the non-negativity flag: with OBIR on
    and a numeric [alpha], the flag changes nothing of the fit (with a
    selection method for [alpha] it is still passed to [selregparam]). *)
Theorem obir_overrides_nonnegativity (fuel : nat) (V0 : RawV) (K0 : RawK)
    (r : vec F) (o : options) (a : F) (b : bool) :
  obir o = true ->
  alpha o = AlphaValue a ->
  fitregmodel fuel V0 K0 r (with_nonnegativity o b) =
  fitregmodel fuel V0 K0 r o.
Proof.
  intros Hobir Halpha.
  unfold fitregmodel, fit_prepare, fit_solve, fit_uq, fit_renormalize,
    classify.
  cbn [with_nonnegativity regtype alpha regorder solver weights huberparam
       nonnegativity obir uqanalysis renormalize noiselevelaim full_output].
  rewrite Halpha, Hobir. reflexivity.
Qed.

(** [regtype] is one of the three literals [_augment] compares with. *)
Definition recognized_regtype (regtype : pystr) : bool :=
  py_is regtype "tikhonov" || py_is regtype "tv" || py_is regtype "huber".

(** The external calls of the solution without OBIR. *)
Definition solve_calls (o : options) : list call :=
  if nonnegativity o then
    if py_eq (solver o) "fnnls" then [c_fnnls]
    else if py_eq (solver o) "nnlsbpp" then [c_linalg_solve; c_nnlsbpp]
    else [c_cvxnnls]
  else [c_linalg_solve].

(** The index arrays of the datasets, as [parse_multidatasets] returns
    them. *)
Definition datasets (V0 : RawV) (K0 : RawK) (o : options)
  : list (list nat) :=
  snd (parse_multidatasets V0 K0 (weights o)).

(** The uncertainty of a returned tuple. *)
Definition returned_Puq (res : fit_result) : puq :=
  match res with
  | Fit2 _ u => u
  | Fit3 _ u _ => u
  end.

Lemma augment_returns (res : vec F) (J : mat F) (regtype : pystr) (a : F)
    (L : mat F) (P : vec F) (eta : F) :
  recognized_regtype regtype = true ->
  exists x, _augment res J regtype a L P eta = ([], Val x).
Proof.
  unfold recognized_regtype, _augment. intros Hr.
  destruct (py_is regtype "tikhonov"); [eexists; reflexivity|].
  destruct (py_is regtype "tv"); [eexists; reflexivity|].
  destruct (py_is regtype "huber"); [eexists; reflexivity|discriminate].
Qed.

Lemma fit_prepare_datasets (V0 : RawV) (K0 : RawK) (r : vec F)
    (o : options) :
  exists V K w L a KtKreg KtV,
    fit_prepare V0 K0 r o =
    (prepare_calls o,
     Val (V, K, w, datasets V0 K0 o, L, a, KtKreg, KtV)).
Proof.
  unfold fit_prepare, prepare_calls, datasets.
  destruct (parse_multidatasets V0 K0 (weights o)) as [[[V K] w] subsets].
  rewrite !bind_ext. cbn [calls result fst snd].
  destruct (alpha o) as [m|a].
  - rewrite bind_ext. cbn [calls result fst snd].
    destruct (lsqcomponents _ _ _ _ _ _ _) as [A b].
    rewrite bind_ext. do 7 eexists. reflexivity.
  - rewrite bind_ret. cbn [calls result fst snd].
    destruct (lsqcomponents _ _ _ _ _ _ _) as [A b].
    rewrite bind_ext. do 7 eexists. reflexivity.
Qed.

Lemma fit_solve_direct (fuel : nat) (o : options) (V : vec F) (K L : mat F)
    (a : F) (w : W) (KtKreg : mat F) (KtV : vec F) :
  obir o = false ->
  (nonnegativity o = true -> known_solver (solver o) = true) ->
  exists P, fit_solve fuel o V K L a w KtKreg KtV = (solve_calls o, Val P).
Proof.
  intros Hobir Hk. unfold fit_solve, classify, solve_calls. rewrite Hobir.
  destruct (nonnegativity o); [|eexists; reflexivity].
  specialize (Hk eq_refl). unfold known_solver in Hk. unfold nnls_solve.
  destruct (py_eq (solver o) "fnnls"); [eexists; reflexivity|].
  destruct (py_eq (solver o) "nnlsbpp"); [eexists; reflexivity|].
  destruct (py_eq (solver o) "cvx"); [eexists; reflexivity|discriminate].
Qed.

(** X9.  Without OBIR the fit raises nothing when the solver tag is known
    (or non-negativity is off) and the regularization type is one of the
    three literals (or the uncertainty analysis is off): it returns, after
    the external calls listed, with one call of the evaluator per dataset
    and, when the uncertainty analysis is off, the empty list for [Puq]. *)
Theorem fit_returns (fuel : nat) (V0 : RawV) (K0 : RawK) (r : vec F)
    (o : options) :
  obir o = false ->
  (nonnegativity o = true -> known_solver (solver o) = true) ->
  (uqanalysis o = true -> recognized_regtype (regtype o) = true) ->
  exists res,
    fitregmodel fuel V0 K0 r o =
    (prepare_calls o ++ solve_calls o
     ++ (if uqanalysis o then [c_hccm; c_uqst] else [])
     ++ c_linalg_pinv
        :: repeat c_goodness_of_fit (length (datasets V0 K0 o)),
     Val res) /\
    (uqanalysis o = false -> returned_Puq res = PuqEmpty).
Proof.
  intros Hobir Hk Hreg. unfold fitregmodel.
  destruct (fit_prepare_datasets V0 K0 r o)
    as (V & K & w & L & a & KtKreg & KtV & Hprep).
  rewrite Hprep, bind_pair_val.
  destruct (fit_solve_direct fuel o V K L a w KtKreg KtV Hobir Hk)
    as [P Hsolve].
  rewrite Hsolve, bind_pair_val.
  unfold fit_uq, fit_renormalize.
  destruct (uqanalysis o) eqn:Huq.
  - destruct (augment_returns (wmul_vec w (vsub V (matvec K P)))
                (wmul_mat w K) (regtype o) a L P (huberparam o)
                (Hreg eq_refl)) as [[res' J'] Haug].
    rewrite Haug. rewrite bind_pair_val. rewrite !bind_ext.
    cbn [calls result fst snd ret]. rewrite bind_pair_val.
    destruct (renormalize o); rewrite fit_gof_records, bind_pair_val;
      destruct (full_output o); cbn [calls result fst snd ret app];
      rewrite ?app_nil_r; eexists; (split; [reflexivity|discriminate]).
  - rewrite bind_ret. cbn [calls result fst snd ret].
    destruct (renormalize o); rewrite fit_gof_records, bind_pair_val;
      destruct (full_output o); cbn [calls result fst snd ret app];
      rewrite ?app_nil_r; eexists; (split; [reflexivity|reflexivity]).
Qed.

(** X8.  Without OBIR, with the uncertainty analysis on and a regularization
    type that is none of the three literals, the fit raises
    [UnboundLocalError] for [resreg] once the problem is solved: no
    covariance, uncertainty or goodness of fit is computed. *)
Theorem unrecognized_regtype_raises (fuel : nat) (V0 : RawV) (K0 : RawK)
    (r : vec F) (o : options) :
  obir o = false ->
  (nonnegativity o = true -> known_solver (solver o) = true) ->
  uqanalysis o = true ->
  recognized_regtype (regtype o) = false ->
  fitregmodel fuel V0 K0 r o =
  (prepare_calls o ++ solve_calls o, Raise (UnboundLocalError "resreg")).
Proof.
  intros Hobir Hk Huq Hreg. unfold fitregmodel.
  destruct (fit_prepare_datasets V0 K0 r o)
    as (V & K & w & L & a & KtKreg & KtV & Hprep).
  rewrite Hprep, bind_pair_val.
  destruct (fit_solve_direct fuel o V K L a w KtKreg KtV Hobir Hk)
    as [P Hsolve].
  rewrite Hsolve, bind_pair_val.
  unfold fit_uq. rewrite Huq.
  unfold recognized_regtype in Hreg.
  apply orb_false_elim in Hreg. destruct Hreg as [Hreg H3].
  apply orb_false_elim in Hreg. destruct Hreg as [H1 H2].
  rewrite (augment_unrecognized _ _ _ _ _ _ _ H1 H2 H3).
  unfold bind. cbn [calls result fst snd]. now rewrite !app_nil_r.
Qed.
End FitRuns.

(** ** Further properties of [_augment] *)

Section AugmentShape.
Context {F : Type} {SF : Scalar F} {EF : Elementary F}.
Local Open Scope sc_scope.

Lemma scale_rows_width (m : nat) (x : vec F) (A : mat F) :
  Forall (fun row => length row = m) A ->
  Forall (fun row => length row = m) (scale_rows x A).
Proof.
  intros HA. revert x.
  induction HA as [|row A Hrow _ IH]; intros [|a x]; cbn [scale_rows];
    constructor; [unfold vscale; now rewrite length_map|apply IH].
Qed.

Lemma mscale_width (m : nat) (c : F) (A : mat F) :
  Forall (fun row => length row = m) A ->
  Forall (fun row => length row = m) (mscale c A).
Proof.
  intros HA. unfold mscale. apply Forall_map.
  eapply Forall_impl; [|exact HA].
  intros row Hrow. unfold vscale. now rewrite length_map.
Qed.

(** X7.  The augmented Jacobian is rectangular: when the data Jacobian and
    [L] have [m] columns, so has every row [_augment] returns, for each of
    the three regularization types. *)
Theorem augment_keeps_width (m : nat) (p : penalty) (res : vec F)
    (J : mat F) (alpha : F) (L : mat F) (P : vec F) (eta : F) :
  Forall (fun row => length row = m) J ->
  Forall (fun row => length row = m) L ->
  exists res' J',
    _augment res J (lit (tag p)) alpha L P eta = ([], Val (res', J')) /\
    Forall (fun row => length row = m) J'.
Proof.
  intros HJ HL. unfold _augment.
  destruct p; cbn [tag py_is lit interned chars andb String.eqb Ascii.eqb
                   Bool.eqb];
    rewrite bind_ret; cbn [calls result fst snd ret];
    do 2 eexists; (split; [reflexivity|]);
    apply Forall_app; (split; [exact HJ|]);
    repeat apply mscale_width; try apply scale_rows_width; exact HL.
Qed.
End AugmentShape.

(** *** The penalty rows where [L@P] vanishes, on real numbers *)

Lemma eps_fourth_root : Rpower (/ 2 ^ 52) (1 / 4) = (/ 2 ^ 13)%R.
Proof.
  assert (H2 : (0 < 2)%R) by lra.
  replace (/ 2 ^ 52)%R with (Rpower 2 (- INR 52)).
  - rewrite Rpower_mult.
    replace (- INR 52 * (1 / 4))%R with (- INR 13)%R
      by (simpl; lra).
    rewrite Rpower_Ropp, Rpower_pow by exact H2. reflexivity.
  - rewrite Rpower_Ropp, Rpower_pow by exact H2. reflexivity.
Qed.

(** X11.  In exact arithmetic, where entry [i] of [L@P] is zero nothing is
    divided by zero: row [i] of the total-variation and of the pseudo-Huber
    penalty Jacobian is zero, the pseudo-Huber penalty residual is zero, and
    the total-variation penalty residual is [alpha*eps**(1/4)], that is
    [alpha/8192], not zero. *)
Theorem penalty_at_zero (p : penalty) (res : vec R) (J : mat R)
    (alpha : R) (L : mat R) (P : vec R) (eta : R) (i : nat) :
  (i < length L)%nat ->
  nth i (matvec L P) 0%R = 0%R ->
  exists res' J',
    _augment res J (lit (tag p)) alpha L P eta = ([], Val (res', J')) /\
    nth (length res + i) res' 0%R =
      match p with
      | tikhonov_penalty => 0%R
      | tv_penalty => (alpha / 8192)%R
      | huber_penalty => 0%R
      end /\
    (p <> tikhonov_penalty ->
     forall j, (j < length (nth i L []))%nat ->
               nth j (nth (length J + i) J' []) 0%R = 0%R).
Proof.
  intros Hi Hzero.
  rewrite (augment_recognized R_two_quarters).
  do 2 eexists. split; [reflexivity|].
  unfold penalty_rows. cbn [fst snd].
  assert (HLP : dot (nth i L []) P = 0%R).
  { rewrite <- Hzero. unfold matvec. symmetry.
    now apply (nth_map_lt (fun row => dot row P) L i 0%R []). }
  split.
  - rewrite nth_app_right.
    rewrite (nth_map_lt
               (fun row => mul alpha (spec_penalty_residual p eta (dot row P)))
               L i 0%R []) by exact Hi.
    cbv beta.
    match goal with
    | |- context [spec_penalty_residual p eta ?d] =>
        replace d with 0%R by (symmetry; exact HLP)
    end.
    destruct p;
      cbn [spec_penalty_residual mul add sub div of_Z sqrt pow eps R_scalar
           R_elementary].
    + lra.
    + replace (0 * 0 + / 2 ^ 52)%R with (/ 2 ^ 52)%R by lra.
      rewrite eps_fourth_root. lra.
    + replace (0 / eta * (0 / eta) + 1)%R with 1%R
        by (unfold Rdiv; ring).
      rewrite sqrt_1. replace (1 - 1)%R with 0%R by lra.
      rewrite sqrt_0. lra.
  - intros Hp j Hj. rewrite nth_app_right.
    rewrite (nth_map_lt
               (fun row =>
                  map (fun l => mul alpha
                                  (spec_penalty_jacobian p eta (dot row P) l))
                      row)
               L i [] []) by exact Hi.
    rewrite (nth_map_lt
               (fun l => mul alpha
                           (spec_penalty_jacobian p eta
                              (dot (nth i L []) P) l))
               (nth i L []) j 0%R 0%R) by exact Hj.
    cbv beta.
    match goal with
    | |- context [spec_penalty_jacobian p eta ?d] =>
        replace d with 0%R by (symmetry; exact HLP)
    end.
    destruct p; [congruence| |];
      cbn [spec_penalty_jacobian spec_row_factor mul add sub div of_Z
           R_scalar]; ring.
Qed.

(** *** Renormalization on real numbers *)

Section TrapzScaling.
Local Open Scope R_scope.
Variable c : R.

Lemma zipWith_add_divs (a b : vec R) :
  zipWith Rplus (map (fun e => e / c) a) (map (fun e => e / c) b) =
  map (fun e => e / c) (zipWith Rplus a b).
Proof.
  revert b. induction a as [|x a IH]; intros [|y b]; cbn [map zipWith];
    try reflexivity.
  rewrite IH. f_equal. unfold Rdiv. ring.
Qed.

Lemma zipWith_mul_divs (d s : vec R) :
  zipWith Rmult d (map (fun e => e / c) s) =
  map (fun e => e / c) (zipWith Rmult d s).
Proof.
  revert s. induction d as [|x d IH]; intros [|y s]; cbn [map zipWith];
    try reflexivity.
  rewrite IH. f_equal. unfold Rdiv. ring.
Qed.

Lemma removelast_map_divs (P : vec R) :
  removelast (map (fun e => e / c) P) = map (fun e => e / c) (removelast P).
Proof.
  induction P as [|x [|y P] IH]; try reflexivity.
  cbn [map removelast] in *. now rewrite IH.
Qed.

Lemma fold_add_divs (t : vec R) (a : R) :
  fold_left Rplus (map (fun e => e / c) t) (a / c) =
  fold_left Rplus t a / c.
Proof.
  revert a. induction t as [|x t IH]; intros a; [reflexivity|].
  cbn [map fold_left]. rewrite <- IH. f_equal. unfold Rdiv. ring.
Qed.

(** The integral of [P/c] is the integral of [P], divided by [c]. *)
Lemma trapz_divs (P r : vec R) :
  np_trapz (vdivs P c) r = np_trapz P r / c.
Proof.
  unfold np_trapz, vdivs, vadd, vmul, vsum.
  cbn [add mul div sub of_Z R_scalar].
  replace (tl (map (fun e => e / c) P))
    with (map (fun e => e / c) (tl P)) by (now destruct P).
  rewrite removelast_map_divs, zipWith_add_divs, zipWith_mul_divs.
  rewrite !map_map.
  rewrite (map_ext (fun x => x / c / 2) (fun x => x / 2 / c))
    by (intros; unfold Rdiv; ring).
  rewrite <- (map_map (fun x => x / 2) (fun x => x / c)).
  replace 0 with (0 / c) at 1 by (unfold Rdiv; ring).
  apply fold_add_divs.
Qed.
End TrapzScaling.

(** X6.  In exact arithmetic, a fitted distribution whose integral is not
    zero is returned with integral 1, and renormalizing what was
    renormalized changes nothing. *)
Theorem renormalized_integrates_to_one (env : Env R) (o : @options R env)
    (r P : vec R) (Puq : puq) :
  renormalize o = true ->
  np_trapz P r <> 0%R ->
  np_trapz (fst (fit_renormalize o r P Puq)) r = 1%R /\
  fst (fit_renormalize o r (fst (fit_renormalize o r P Puq))
                       (snd (fit_renormalize o r P Puq))) =
  fst (fit_renormalize o r P Puq).
Proof.
  intros Hren Hnz.
  assert (Hfst : forall Q u,
             fst (fit_renormalize o r Q u) = vdivs Q (np_trapz Q r)).
  { intros Q u. unfold fit_renormalize. rewrite Hren.
    destruct (uqanalysis o); [destruct u|]; reflexivity. }
  assert (Hone : np_trapz (vdivs P (np_trapz P r)) r = 1%R).
  { rewrite trapz_divs. now apply Rinv_r. }
  rewrite !Hfst. split; [exact Hone|].
  rewrite Hone. unfold vdivs at 1.
  rewrite (map_ext (fun e => div e 1%R) (fun e => e)).
  - apply map_id.
  - intros e. cbn [div R_scalar]. lra.
Qed.

(** ** [assert_confidence_intervals] of [test/test_fitmultimodel.py] *)

Section ConfidenceIntervalCheck.
Context {F : Type} {SF : Scalar F}.

(** [<=], [np.minimum] and [np.maximum] on scalars. *)
Variables (leb : F -> F -> bool) (fmin fmax : F -> F -> F).

(** [np.all(a rel b)] for arrays of one shape. *)
Definition np_all2 (rel : F -> F -> bool) (a b : vec F) : bool :=
  forallb (fun p => rel (fst p) (snd p)) (combine a b).

(** [A[:, k]] *)
Definition column (k : nat) (A : mat F) : vec F :=
  map (fun row => nth k row (of_Z 0)) A.

Definition newline : string := String (Ascii.ascii_of_nat 10) EmptyString.

(** The list [errors] before the final [assert]. *)
Definition ci_errors (pci50 pci95 : mat F) (pfit lb ub : vec F)
  : list string :=
  let p95lb := column 0 pci95 in
  let p95ub := column 1 pci95 in
  let p50lb := column 0 pci50 in
  let p50ub := column 1 pci50 in
  (if negb (np_all2 leb p95lb pfit) && negb (np_all2 leb p50lb pfit)
   then ["Some fitted values are below the lower bound of the confidence intervals."%string]
   else [])
  ++ (if negb (np_all2 (fun a b => leb b a) p95ub pfit)
         && negb (np_all2 (fun a b => leb b a) p50lb pfit)
      then ["Some fitted values are over the upper bound of the confidence intervals."%string]
      else [])
  ++ (if negb (np_all2 leb p95lb p50lb)
      then ["The 50%-CI has lower values than the 95%-CI"%string] else [])
  ++ (if negb (np_all2 (fun a b => leb b a) p95ub p50ub)
      then ["The 50%-CI has larger values than the 95%-CI"%string] else [])
  ++ (if negb (np_all2 eqb (zipWith fmin lb p95lb) lb)
      then ["The lower bounds are not satisfied by the confidence intervals."%string]
      else [])
  ++ (if negb (np_all2 eqb (zipWith fmax ub p95ub) ub)
      then ["The upper bounds are not satisfied by the confidence intervals."%string]
      else []).

(** [None] when the [assert] passes, else the message of the
    [AssertionError]. *)
Definition assert_confidence_intervals (pci50 pci95 : mat F)
    (pfit lb ub : vec F) : option string :=
  match ci_errors pci50 pci95 pfit lb ub with
  | [] => None
  | errors =>
      Some ("Errors occured:" ++ newline ++ String.concat newline errors)%string
  end.
End ConfidenceIntervalCheck.

(** [<=] on real numbers. *)
Definition Rleb (x y : R) : bool := if Rle_dec x y then true else false.

Lemma np_all2_Forall2 (rel : R -> R -> bool) (Rel : R -> R -> Prop)
    (a b : vec R) :
  (forall x y, rel x y = true <-> Rel x y) ->
  length a = length b ->
  np_all2 rel a b = true <-> Forall2 Rel a b.
Proof.
  intros Hrel. revert b.
  induction a as [|x a IH]; intros [|y b] Hlen; try discriminate.
  - split; [constructor|reflexivity].
  - unfold np_all2 in *. cbn [combine forallb fst snd].
    rewrite andb_true_iff, Hrel, IH by (injection Hlen; trivial).
    split.
    + intros [H1 H2]. now constructor.
    + intros H. inversion H. now split.
Qed.

Lemma Rleb_le (x y : R) : Rleb x y = true <-> (x <= y)%R.
Proof. unfold Rleb. destruct (Rle_dec x y); intuition discriminate. Qed.

Lemma Rmin_eq_le (l p : R) :
  @eqb R _ (Rmin l p) l = true <-> (l <= p)%R.
Proof.
  cbn [eqb R_scalar]. destruct (Req_dec_T (Rmin l p) l) as [He|He].
  - split; [intros _|reflexivity]. rewrite <- He. apply Rmin_r.
  - split; [discriminate|]. intros Hle. exfalso. apply He.
    now apply Rmin_left.
Qed.

Lemma Rmax_eq_le (u p : R) :
  @eqb R _ (Rmax u p) u = true <-> (p <= u)%R.
Proof.
  cbn [eqb R_scalar]. destruct (Req_dec_T (Rmax u p) u) as [He|He].
  - split; [intros _|reflexivity]. rewrite <- He. apply Rmax_r.
  - split; [discriminate|]. intros Hle. exfalso. apply He.
    now apply Rmax_left.
Qed.

Lemma np_all2_zip (f : R -> R -> R) (Rel : R -> R -> Prop) (a b : vec R) :
  (forall x y, @eqb R _ (f x y) x = true <-> Rel x y) ->
  length a = length b ->
  np_all2 eqb (zipWith f a b) a = true <-> Forall2 Rel a b.
Proof.
  intros Hrel. revert b.
  induction a as [|x a IH]; intros [|y b] Hlen; try discriminate.
  - split; [constructor|reflexivity].
  - unfold np_all2 in *. cbn [zipWith combine forallb fst snd].
    rewrite andb_true_iff, Hrel, IH by (injection Hlen; trivial).
    split.
    + intros [H1 H2]. now constructor.
    + intros H. inversion H. now split.
Qed.

(** X13.  On real numbers and arrays of one length, the check passes exactly
    when: the fit is nowhere below the 95% lower bounds or nowhere below the
    50% lower bounds; it is nowhere above the 95% upper bounds or nowhere
    above the 50% lower bounds; the 50% interval lies within the 95% interval;
    and the 95% interval lies within [lb] and [ub].  The 50% upper bounds are
    never compared with the fit. *)
Theorem ci_check_passes_iff (n : nat) (pci50 pci95 : mat R)
    (pfit lb ub : vec R) :
  length pci50 = n -> length pci95 = n -> length pfit = n ->
  length lb = n -> length ub = n ->
  let p95lb := column 0 pci95 in
  let p95ub := column 1 pci95 in
  let p50lb := column 0 pci50 in
  let p50ub := column 1 pci50 in
  assert_confidence_intervals Rleb Rmin Rmax pci50 pci95 pfit lb ub = None <->
  (Forall2 Rle p95lb pfit \/ Forall2 Rle p50lb pfit) /\
  (Forall2 Rle pfit p95ub \/ Forall2 Rle pfit p50lb) /\
  Forall2 Rle p95lb p50lb /\
  Forall2 Rle p50ub p95ub /\
  Forall2 Rle lb p95lb /\
  Forall2 Rle p95ub ub.
Proof.
  intros H50 H95 Hfit Hlb Hub p95lb p95ub p50lb p50ub.
  assert (L1 : length p95lb = n)
    by (unfold p95lb, column; now rewrite length_map).
  assert (L2 : length p95ub = n)
    by (unfold p95ub, column; now rewrite length_map).
  assert (L3 : length p50lb = n)
    by (unfold p50lb, column; now rewrite length_map).
  assert (L4 : length p50ub = n)
    by (unfold p50ub, column; now rewrite length_map).
  assert (Hge : forall a b : R, Rleb b a = true <-> (b <= a)%R)
    by (intros; apply Rleb_le).
  assert (Hflip : forall a b : vec R,
             length a = length b ->
             (np_all2 (fun x y => Rleb y x) a b = true <-> Forall2 Rle b a)).
  { intros a. induction a as [|x a IH]; intros [|y b] Hlen; try discriminate.
    - split; [constructor|reflexivity].
    - unfold np_all2 in *. cbn [combine forallb fst snd].
      rewrite andb_true_iff, Rleb_le, IH by (injection Hlen; trivial).
      split.
      + intros [U1 U2]. now constructor.
      + intros U. inversion U. now split. }
  pose proof (np_all2_Forall2 Rleb Rle p95lb pfit Rleb_le
                ltac:(congruence)) as E1.
  pose proof (np_all2_Forall2 Rleb Rle p50lb pfit Rleb_le
                ltac:(congruence)) as E2.
  pose proof (Hflip p95ub pfit ltac:(congruence)) as E3.
  pose proof (Hflip p50lb pfit ltac:(congruence)) as E4.
  pose proof (np_all2_Forall2 Rleb Rle p95lb p50lb Rleb_le
                ltac:(congruence)) as E5.
  pose proof (Hflip p95ub p50ub ltac:(congruence)) as E6.
  pose proof (np_all2_zip Rmin Rle lb p95lb Rmin_eq_le
                ltac:(congruence)) as E7.
  pose proof (np_all2_zip Rmax (fun u p => (p <= u)%R) ub p95ub Rmax_eq_le
                ltac:(congruence)) as E8.
  assert (E8' : np_all2 eqb (zipWith Rmax ub p95ub) ub = true <->
                Forall2 Rle p95ub ub).
  { rewrite E8. clear. generalize ub p95ub. intros a b. split.
    - induction 1; now constructor.
    - induction 1; now constructor. }
  transitivity
    (((np_all2 Rleb p95lb pfit || np_all2 Rleb p50lb pfit)
      && (np_all2 (fun a b => Rleb b a) p95ub pfit
          || np_all2 (fun a b => Rleb b a) p50lb pfit)
      && np_all2 Rleb p95lb p50lb
      && np_all2 (fun a b => Rleb b a) p95ub p50ub
      && np_all2 eqb (zipWith Rmin lb p95lb) lb
      && np_all2 eqb (zipWith Rmax ub p95ub) ub)%bool = true).
  - unfold assert_confidence_intervals, ci_errors.
    fold p95lb p95ub p50lb p50ub.
    destruct (np_all2 Rleb p95lb pfit), (np_all2 Rleb p50lb pfit),
      (np_all2 (fun a b => Rleb b a) p95ub pfit),
      (np_all2 (fun a b => Rleb b a) p50lb pfit),
      (np_all2 Rleb p95lb p50lb),
      (np_all2 (fun a b => Rleb b a) p95ub p50ub),
      (np_all2 eqb (zipWith Rmin lb p95lb) lb),
      (np_all2 eqb (zipWith Rmax ub p95ub) ub);
      cbn [negb andb orb app];
      split; intros Hc; first [reflexivity|discriminate Hc].
  - rewrite !andb_true_iff, !orb_true_iff, E1, E2, E3, E4, E5, E6, E7, E8'.
    tauto.
Qed.

(** ** The further properties on the zero signal *)

Module ZeroSignalExtras.
Import ZeroSignalR ZeroSignalFitR.
Local Open Scope R_scope.
#[local] Existing Instance zero_signal_env.

Lemma refining_never_rebuilds_witness :
  ~ In c_lsqcomponents
       (calls (obir_loop zs_V zs_K zs_L tikhonov 1 1 huber_default cvx
                         stopDivergent 3 (zs_state 2))).
Proof.
  apply (refining_never_rebuilds (env := zero_signal_env) zs_V zs_K zs_L
           tikhonov 1 1 huber_default cvx stopDivergent 3 (zs_state 2)).
  cbn. lia.
Defined.

(** One warmup pass on the zero signal with noise target 1. *)
Lemma zs_one_warmup_pass :
  exists st',
    warmup_passes (env := zero_signal_env) zs_V zs_K zs_L tikhonov 1 1
                  huber_default cvx stopDivergent 1 (zs_state 1) st'.
Proof.
  eexists. eapply warmup_more; [reflexivity| | |apply warmup_none].
  - rewrite (body_warmup (env := zero_signal_env) zs_V zs_K zs_L tikhonov
               1 1 huber_default cvx stopDivergent (zs_state 1) (zeros 2)
               eq_refl eq_refl).
    cbn [result snd]. unfold spec_warmup.
    rewrite std_zero_solution.
    replace (ltb 0 1) with true
      by (cbn [ltb R_scalar]; destruct (Rlt_dec 0 1); [reflexivity|lra]).
    reflexivity.
  - reflexivity.
Qed.

Lemma warmup_alpha_growth_witness :
  exists st' e,
    (2 * e = 1 * (1 + 1))%nat /\
    st_alpha st' = st_alpha (zs_state 1) * 2 ^ e.
Proof.
  destruct zs_one_warmup_pass as [st' Hpass].
  destruct (warmup_alpha_growth zero_signal_env zs_V zs_K zs_L tikhonov 1 1
              huber_default cvx stopDivergent 1 (zs_state 1) st' Hpass
              eq_refl) as (e & He & Ha & _).
  exists st', e. split; [exact He|exact Ha].
Defined.

Lemma R_sub_zero (x : R) : @sub R _ x (of_Z 0) = x.
Proof. cbn [sub of_Z R_scalar]. lra. Qed.

Lemma first_pass_unshifted_witness :
  nnls_solve (env := zero_signal_env) cvx
    (st_KtKreg (obir_init 1 zs_L [[2; -1]; [-1; 2]] [0; 0]))
    (vsub (st_KtV (obir_init 1 zs_L [[2; -1]; [-1; 2]] [0; 0]))
          (st_subGrad (obir_init 1 zs_L [[2; -1]; [-1; 2]] [0; 0]))) =
  nnls_solve cvx [[2; -1]; [-1; 2]] [0; 0].
Proof.
  apply (first_pass_unshifted (env := zero_signal_env) zs_L cvx R_sub_zero
           1 [[2; -1]; [-1; 2]] [0; 0]).
  reflexivity.
Defined.

Lemma renormalized_integrates_to_one_witness :
  np_trapz (fst (fit_renormalize (zs_options cvx true false true) [0; 2]
                                 [1; 1] PuqEmpty)) [0; 2] = 1.
Proof.
  apply (renormalized_integrates_to_one zero_signal_env
           (zs_options cvx true false true) [0; 2] [1; 1] PuqEmpty).
  - reflexivity.
  - cbv [np_trapz np_diff vmul vadd vdivs zipWith tl removelast map vsum
         fold_left add sub mul div of_Z R_scalar].
    lra.
Defined.

(** Keyword arguments with the uncertainty analysis on. *)
Definition zs_options_uq (regtype : pystr) : @options R zero_signal_env :=
  {| regtype := regtype;
     alpha := AlphaValue 1;
     regorder := 1%Z;
     solver := cvx;
     weights := 1;
     huberparam := huber_default;
     nonnegativity := true;
     obir := false;
     uqanalysis := true;
     renormalize := false;
     noiselevelaim := -1;
     full_output := false |}.

Lemma fit_returns_witness :
  exists res,
    result (zs_fit 0 zs_one_V zs_one_K (zs_options_uq tikhonov)) = Val res.
Proof.
  destruct (fit_returns (env := zero_signal_env) 0 zs_one_V zs_one_K zs_r
              (zs_options_uq tikhonov))
    as (res & Hres & _);
    [reflexivity|reflexivity|reflexivity|].
  exists res. unfold zs_fit. now rewrite Hres.
Defined.

(** A string with the characters of ['tv'] that is not the literal's
    object. *)
Definition tv_copy : pystr := PyStr "tv" false.

Lemma unrecognized_regtype_raises_witness :
  result (zs_fit 0 zs_one_V zs_one_K (zs_options_uq tv_copy)) =
  Raise (UnboundLocalError "resreg").
Proof.
  unfold zs_fit.
  rewrite (unrecognized_regtype_raises (env := zero_signal_env) 0 zs_one_V
             zs_one_K zs_r (zs_options_uq tv_copy));
    reflexivity.
Defined.

Lemma obir_overrides_nonnegativity_witness :
  zs_fit 1 zs_one_V zs_one_K
         (with_nonnegativity (zs_options cvx false true false) true) =
  zs_fit 1 zs_one_V zs_one_K (zs_options cvx false true false).
Proof.
  unfold zs_fit.
  apply (obir_overrides_nonnegativity (env := zero_signal_env) 1 zs_one_V
           zs_one_K zs_r (zs_options cvx false true false) 1 true);
    reflexivity.
Defined.

Lemma augment_keeps_width_witness :
  exists res' J',
    _augment [1] [[1; 0]] (lit "huber") 1 zs_L [0; 0] 1 =
    ([], Val (res', J')) /\
    Forall (fun row => length row = 2%nat) J'.
Proof.
  apply (augment_keeps_width 2 huber_penalty [1] [[1; 0]] 1 zs_L [0; 0] 1).
  - repeat constructor.
  - repeat constructor.
Defined.

Lemma penalty_at_zero_witness :
  exists res' J',
    _augment [1] [[1; 0]] (lit "tv") 1 zs_L [0; 0] 1 = ([], Val (res', J')) /\
    nth 1 res' 0 = 1 / 8192.
Proof.
  destruct (penalty_at_zero tv_penalty [1] [[1; 0]] 1 zs_L [0; 0] 1 0)
    as (res' & J' & Haug & Hres & _).
  - cbn. lia.
  - cbv [matvec map dot vmul zipWith vsum fold_left nth zs_L
         add sub mul div opp of_Z R_scalar].
    lra.
  - exists res', J'. split; [exact Haug|exact Hres].
Defined.

Lemma ci_check_passes_iff_witness :
  assert_confidence_intervals Rleb Rmin Rmax [[0; 1 / 2]] [[-1; 2]] [1]
                              [-2] [3] = None.
Proof.
  apply (ci_check_passes_iff 1 [[0; 1 / 2]] [[-1; 2]] [1] [-2] [3]
           eq_refl eq_refl eq_refl eq_refl eq_refl).
  cbn [column map nth].
  repeat split; try (left; repeat constructor; lra);
    repeat constructor; lra.
Defined.
End ZeroSignalExtras.
